(** * SwasthAI chat front end: conversation state, backend client, voice input

    A shallow embedding of the TypeScript sources

    - the [App] component (module [App]): the chat collection, the
      conversation map, [handleNewChat] and the send-message workflow
      [handleSendMessage] (the component's source is listed after the
      project README);
    - [src/services/api.ts] (module [Api]): [chatAPI.sendMessage];
    - [src/components/ChatArea.tsx] (module [ChatArea]): the speech
      recognition callbacks.

    Conventions.  A JavaScript string is modelled by a Stdlib [string]; its
    elements stand for the code units that [length], [slice], [trim] and
    [+] act on.  [Date.now()] is an integer number of milliseconds ([Z])
    and a [Date] object is identified with its millisecond value.  Every
    reading of the clock made by a handler is an explicit argument, in
    program order; the readings made by one run of a state updater are
    taken to be equal.  React state is a record; a [setX(updater)] call is
    the application of the updater to the corresponding field, calls being
    applied in program order.  Objects used as maps are looked up among
    their own entries. *)

From Stdlib Require Import ZArith String Ascii List Lia.
From Stdlib Require QArith.
From stdpp Require Import base option list gmap strings pretty.

Local Open Scope string_scope.
Local Open Scope list_scope.
Local Open Scope Z_scope.

(** ** JavaScript primitives used by the sources *)

Module Js.

(** Truthiness of a string value: only the empty string is falsy. *)
Definition truthy (s : string) : bool :=
  match s with
  | EmptyString => false
  | String _ _ => true
  end.

(** Truthiness of a [string | null] (or [string | undefined]) value. *)
Definition truthy_opt (o : option string) : bool :=
  match o with
  | Some s => truthy s
  | None => false
  end.

(** [o || d] for [o : string | undefined]. *)
Definition or_else (o : option string) (d : string) : string :=
  match o with
  | Some s => if truthy s then s else d
  | None => d
  end.

(** What [o[name]] finds in an object literal [o] whose own properties
    are strings: the string of an own property, or what the literal
    inherits from [Object.prototype] under that name. *)
Inductive Value :=
| Str (s : string)
| Inherited (name : string).

(** The names every object literal inherits from [Object.prototype].  The
    value under each is a function, and under ["__proto__"] the prototype
    object itself: none is a string and all are truthy. *)
Definition Object_prototype : list string :=
  [ "constructor"; "hasOwnProperty"; "isPrototypeOf"; "propertyIsEnumerable";
    "toLocaleString"; "toString"; "valueOf"; "__proto__";
    "__defineGetter__"; "__defineSetter__"; "__lookupGetter__";
    "__lookupSetter__" ].

(** [o[name]], with [None] for [undefined]: own properties come first. *)
Definition get (o : gmap string string) (name : string) : option Value :=
  match o !! name with
  | Some s => Some (Str s)
  | None =>
      if decide (name ∈ Object_prototype) then Some (Inherited name) else None
  end.

(** [o[name] || d]. *)
Definition get_or (o : gmap string string) (name d : string) : Value :=
  match get o name with
  | Some (Str s) => if truthy s then Str s else Str d
  | Some (Inherited inherited) => Inherited inherited
  | None => Str d
  end.

(** [s.slice(0, n)]: the first [n] code units, or all of [s] when it is
    shorter. *)
Fixpoint slice0 (n : nat) (s : string) : string :=
  match n, s with
  | S n', String a s' => String a (slice0 n' s')
  | _, _ => EmptyString
  end.

(** White space removed by [String.prototype.trim], among the code units
    below 256: TAB, LF, VT, FF, CR, SPACE and NBSP. *)
Definition is_space (a : ascii) : bool :=
  let n := nat_of_ascii a in
  ((9 <=? n) && (n <=? 13))%nat || (n =? 32)%nat || (n =? 160)%nat.

Fixpoint trimStart (s : string) : string :=
  match s with
  | EmptyString => EmptyString
  | String a s' => if is_space a then trimStart s' else s
  end.

(** [trimEnd] keeps a character when it is not a space or when something
    is kept after it. *)
Fixpoint trimEnd (s : string) : string :=
  match s with
  | EmptyString => EmptyString
  | String a s' =>
      match trimEnd s' with
      | EmptyString => if is_space a then EmptyString else String a EmptyString
      | r => String a r
      end
  end.

Definition trim (s : string) : string := trimEnd (trimStart s).

(** [n.toString()] for an integer [n]: its decimal numeral. *)
Definition toString (n : Z) : string := pretty n.

(** What a [catch] clause receives: an [Error] instance with its
    [message], or some other thrown value. *)
Inductive Thrown :=
| ErrorObj (message : string)
| NonError.

End Js.

(** ** src/services/api.ts *)

Module Api.

Record ChatResponse := { reply : string; lang : string }.

(** The object passed to [JSON.stringify] for the request body. *)
Record ChatRequest := { query : string; req_lang : string }.

Record Request := {
  url : string;
  method : string;
  contentType : string;
  body : ChatRequest
}.

(** What a fulfilled [fetch] yields: the status of the response and what
    the promise of [response.json()] settles to. *)
Record Response := { status : Z; json : Js.Thrown + ChatResponse }.

(** [response.ok]: the status is in the range 200-299. *)
Definition ok (r : Response) : bool :=
  (200 <=? status r) && (status r <=? 299).

Inductive FetchResult :=
| Rejected (e : Js.Thrown)
| Fulfilled (r : Response).

(** Asynchronous computations whose only interaction with the outside is
    [fetch]: a computation fulfils, rejects, or issues a request and
    continues with what the network answers. *)
Inductive Async (A : Type) :=
| Return (a : A)
| Throw (e : Js.Thrown)
| Fetch (req : Request) (k : FetchResult → Async A).
Arguments Return {A} a.
Arguments Throw {A} e.
Arguments Fetch {A} req k.

Fixpoint bind {A B} (p : Async A) (f : A → Async B) : Async B :=
  match p with
  | Return a => f a
  | Throw e => Throw e
  | Fetch req k => Fetch req (λ r, bind (k r) f)
  end.

(** [try { p } catch (error) { h error }] *)
Fixpoint tryCatch {A} (p : Async A) (h : Js.Thrown → Async A) : Async A :=
  match p with
  | Return a => Return a
  | Throw e => h e
  | Fetch req k => Fetch req (λ r, tryCatch (k r) h)
  end.

(** [x ← p; q] reads [const x = await p; q]. *)
#[export] Instance Async_bind : MBind Async := λ A B f p, bind p f.

(** [await fetch(url, init)] *)
Definition fetch (req : Request) : Async Response :=
  Fetch req (λ r, match r with
                  | Rejected e => Throw e
                  | Fulfilled resp => Return resp
                  end).

(** [await response.json()] *)
Definition response_json (r : Response) : Async ChatResponse :=
  match json r with
  | inl e => Throw e
  | inr data => Return data
  end.

(** Running a computation against a network.  [net n req] is the answer
    to the request [req] when it is the [n]-th one issued; the result
    comes with the log of the requests issued, oldest first. *)
Fixpoint run {A} (p : Async A) (net : nat → Request → FetchResult)
    (log : list Request) : list Request * (Js.Thrown + A) :=
  match p with
  | Return a => (log, inr a)
  | Throw e => (log, inl e)
  | Fetch req k => run (k (net (length log) req)) net (log ++ [req])
  end.

Section chatAPI.

(** [import.meta.env.VITE_API_URL], fixed at build time. *)
Variable VITE_API_URL : option string.

Definition API_BASE_URL : string :=
  Js.or_else VITE_API_URL "http://localhost:5050".

Definition chat_request (query lang : string) : Request :=
  {| url := API_BASE_URL +:+ "/chat";
     method := "POST";
     contentType := "application/json";
     body := {| query := query; req_lang := lang |} |}.

Definition http_error (r : Response) : Js.Thrown :=
  Js.ErrorObj ("HTTP error! status: " +:+ Js.toString (status r)).

(** The error thrown by the [catch] clause ([console.error] only
    writes to the console and is left out). *)
Definition normalize (error : Js.Thrown) : Js.Thrown :=
  Js.ErrorObj
    match error with
    | Js.ErrorObj message => "Failed to get response: " +:+ message
    | Js.NonError =>
        "Failed to get response from server. Please check if the backend is running."
    end.

Definition sendMessage (query lang : string) : Async ChatResponse :=
  tryCatch
    (response ← fetch (chat_request query lang);
     if negb (ok response) then Throw (http_error response)
     else
       data ← response_json response;
       Return data)
    (λ error, Throw (normalize error)).

End chatAPI.

End Api.

(** ** The [App] component *)

Module Chat.
Record t := mk { id : string; title : string; lastMessage : string; timestamp : Z }.
End Chat.

Inductive Sender := user | bot.

Module Message.
(** [isLoading] and [lang] are optional properties: [None] is an absent
    property. *)
Record t := mk {
  id : string;
  text : string;
  sender : Sender;
  timestamp : Z;
  isLoading : option bool;
  lang : option string
}.
End Message.

Module App.

(** The state held by the component's [useState] hooks ([sidebarVisible]
    plays no part in the conversation and is left out). *)
Record State := mkState {
  chats : list Chat.t;
  activeChatId : option string;
  messages : gmap string (list Message.t);
  loadingChatId : option string
}.

Definition initial : State :=
  {| chats := []; activeChatId := None; messages := ∅; loadingChatId := None |}.

Definition setChats (f : list Chat.t → list Chat.t) (s : State) : State :=
  {| chats := f (chats s); activeChatId := activeChatId s;
     messages := messages s; loadingChatId := loadingChatId s |}.

Definition setActiveChatId (a : option string) (s : State) : State :=
  {| chats := chats s; activeChatId := a;
     messages := messages s; loadingChatId := loadingChatId s |}.

Definition setMessages
    (f : gmap string (list Message.t) → gmap string (list Message.t))
    (s : State) : State :=
  {| chats := chats s; activeChatId := activeChatId s;
     messages := f (messages s); loadingChatId := loadingChatId s |}.

Definition setLoadingChatId (a : option string) (s : State) : State :=
  {| chats := chats s; activeChatId := activeChatId s;
     messages := messages s; loadingChatId := a |}.

(** [prev[chatId] || []] *)
Definition sequenceOf (chatId : string) (prev : gmap string (list Message.t))
    : list Message.t :=
  default [] (prev !! chatId).

(** *** The state updaters of [handleNewChat] and [handleSendMessage] *)

Definition newChat (now date : Z) : Chat.t :=
  {| Chat.id := Js.toString now; Chat.title := "New Chat";
     Chat.lastMessage := ""; Chat.timestamp := date |}.

(** [prevChats => [newChat, ...prevChats]] *)
Definition prependChat (c : Chat.t) (prevChats : list Chat.t) : list Chat.t :=
  c :: prevChats.

(** [prevMessages => ({ ...prevMessages, [chatId]: [userMessage] })] *)
Definition seedMessages (chatId : string) (userMessage : Message.t)
    (prev : gmap string (list Message.t)) : gmap string (list Message.t) :=
  <[chatId := [userMessage]]> prev.

(** [prev => ({ ...prev, [chatId]: [...(prev[chatId] || []), message] })] *)
Definition appendMessage (chatId : string) (message : Message.t)
    (prev : gmap string (list Message.t)) : gmap string (list Message.t) :=
  <[chatId := sequenceOf chatId prev ++ [message]]> prev.

(** [prev => ({ ...prev, [chatId]: (prev[chatId] || []).map(msg =>
      msg.id === messageId ? newMessage : msg) })] *)
Definition replaceMessage (chatId messageId : string) (newMessage : Message.t)
    (prev : gmap string (list Message.t)) : gmap string (list Message.t) :=
  <[chatId := (λ msg, if decide (Message.id msg = messageId)
                       then newMessage else msg) <$> sequenceOf chatId prev]> prev.

(** The summary update made right after the user message is stored. *)
Definition updateChatSummary (chatId text : string) (date : Z)
    (prevChats : list Chat.t) : list Chat.t :=
  (λ chat,
     if decide (Chat.id chat = chatId ∧ Chat.title chat = "New Chat") then
       {| Chat.id := Chat.id chat;
          Chat.title :=
            Js.slice0 30 text +:+
            (if decide (30 < String.length text)%nat then "..." else "");
          Chat.lastMessage := text; Chat.timestamp := date |}
     else if decide (Chat.id chat = chatId) then
       {| Chat.id := Chat.id chat; Chat.title := Chat.title chat;
          Chat.lastMessage := text; Chat.timestamp := date |}
     else chat) <$> prevChats.

(** The summary update made after a successful reply. *)
Definition updateLastMessage (chatId reply : string) (date : Z)
    (prevChats : list Chat.t) : list Chat.t :=
  (λ chat,
     if decide (Chat.id chat = chatId) then
       {| Chat.id := Chat.id chat; Chat.title := Chat.title chat;
          Chat.lastMessage := reply; Chat.timestamp := date |}
     else chat) <$> prevChats.

Definition userMessage (now : Z) (text : string) (date : Z) : Message.t :=
  {| Message.id := Js.toString now; Message.text := text;
     Message.sender := user; Message.timestamp := date;
     Message.isLoading := None; Message.lang := None |}.

Definition loadingMessage (loadingMessageId : string) (date : Z) : Message.t :=
  {| Message.id := loadingMessageId; Message.text := "";
     Message.sender := bot; Message.timestamp := date;
     Message.isLoading := Some true; Message.lang := None |}.

Definition replyMessage (loadingMessageId : string) (response : Api.ChatResponse)
    (date : Z) : Message.t :=
  {| Message.id := loadingMessageId; Message.text := Api.reply response;
     Message.sender := bot; Message.timestamp := date;
     Message.isLoading := None; Message.lang := Some (Api.lang response) |}.

Definition errorText (error : Js.Thrown) : string :=
  let errorMessage :=
    match error with
    | Js.ErrorObj message => message
    | Js.NonError => "Failed to get response from server"
    end in
  "Sorry, I encountered an error: " +:+ errorMessage +:+
  ". Please make sure the backend server is running.".

Definition errorReply (loadingMessageId : string) (error : Js.Thrown)
    (date : Z) : Message.t :=
  {| Message.id := loadingMessageId; Message.text := errorText error;
     Message.sender := bot; Message.timestamp := date;
     Message.isLoading := None; Message.lang := None |}.

(** *** [handleNewChat] *)

Definition handleNewChat (now date : Z) (s : State) : State :=
  let c := newChat now date in
  setMessages (λ prev, <[Chat.id c := []]> prev)
    (setActiveChatId (Some (Chat.id c))
       (setChats (prependChat c) s)).

(** *** [handleSendMessage]

    The function is [async]: it runs up to [await chatAPI.sendMessage]
    ([handleSendMessage_begin]), is suspended, and is resumed with the
    outcome of the backend call ([handleSendMessage_resume]).  The
    variables that the suspended invocation keeps are a [Pending]. *)

(** Clock readings before the [await], in program order.  [now_chat] and
    [date_chat] are read only when a chat is created. *)
Record SendClock := {
  now_chat : Z; date_chat : Z;
  now_user : Z; date_user : Z;
  date_summary : Z;
  now_loading : Z; date_loading : Z
}.

(** Clock readings after the [await]. *)
Record ResumeClock := { date_reply : Z; date_last : Z }.

Record Pending := mkPending {
  chatId : string;
  loadingMessageId : string;
  text : string;
  lang : string
}.

(** [activeChatId] is the value captured by the closure of the render
    that created the handler. *)
Definition handleSendMessage_begin (activeChatId : option string)
    (text lang : string) (k : SendClock) (s : State) : State * Pending :=
  (* if (!chatId) { ... } *)
  let created :=
    let c := newChat (now_chat k) (date_chat k) in
    (Chat.id c,
     setMessages
       (seedMessages (Chat.id c) (userMessage (now_user k) text (date_user k)))
       (setActiveChatId (Some (Chat.id c)) (setChats (prependChat c) s))) in
  let '(chatId, s1) :=
    match activeChatId with
    | Some a =>
        if Js.truthy a then
          (* else { ... } *)
          (a, setMessages
                (appendMessage a (userMessage (now_user k) text (date_user k))) s)
        else created
    | None => created
    end in
  let s2 := setChats (updateChatSummary chatId text (date_summary k)) s1 in
  let loadingMessageId := Js.toString (now_loading k + 1) in
  let s3 :=
    if Js.truthy chatId then
      setLoadingChatId (Some chatId)
        (setMessages
           (appendMessage chatId (loadingMessage loadingMessageId (date_loading k)))
           s2)
    else s2 in
  (s3, {| chatId := chatId; loadingMessageId := loadingMessageId;
          text := text; lang := lang |}).

(** The chat an invocation works on: the active one, or the one it
    creates when [!chatId] holds. *)
Definition targetChat (activeChatId : option string) (k : SendClock) : string :=
  match activeChatId with
  | Some a => if Js.truthy a then a else Js.toString (now_chat k)
  | None => Js.toString (now_chat k)
  end.

Definition handleSendMessage_resume (p : Pending)
    (outcome : Js.Thrown + Api.ChatResponse) (k : ResumeClock) (s : State) : State :=
  let s1 :=
    match outcome with
    | inr response =>
        let s' :=
          if Js.truthy (chatId p) then
            setMessages
              (replaceMessage (chatId p) (loadingMessageId p)
                 (replyMessage (loadingMessageId p) response (date_reply k))) s
          else s in
        setChats (updateLastMessage (chatId p) (Api.reply response) (date_last k)) s'
    | inl error =>
        if Js.truthy (chatId p) then
          setMessages
            (replaceMessage (chatId p) (loadingMessageId p)
               (errorReply (loadingMessageId p) error (date_reply k))) s
        else s
    end in
  setLoadingChatId None s1.

(** An invocation during whose [await] nothing else happens: it is
    resumed, on the state it left, with what [chatAPI.sendMessage(text,
    lang)] settles to on the given network. *)
Definition handleSendMessage (VITE_API_URL : option string)
    (net : nat → Api.Request → Api.FetchResult) (activeChatId : option string)
    (text lang : string) (k : SendClock) (kr : ResumeClock) (s : State) : State :=
  let r := handleSendMessage_begin activeChatId text lang k s in
  let outcome := (Api.run (Api.sendMessage VITE_API_URL text lang) net []).2 in
  handleSendMessage_resume r.2 outcome kr r.1.

(** *** The props the render hands to [ChatArea] *)

(** [activeChatId ? (messages[activeChatId] || []) : []] *)
Definition messagesProp (s : State) : list Message.t :=
  match activeChatId s with
  | Some a => if Js.truthy a then sequenceOf a (messages s) else []
  | None => []
  end.

(** [loadingChatId === activeChatId] *)
Definition isLoadingProp (s : State) : bool :=
  bool_decide (loadingChatId s = activeChatId s).

End App.

(** ** src/components/ChatArea.tsx: voice input *)

Module ChatArea.

(** [results[i].isFinal] and [results[i][0].transcript]. *)
Record SpeechRecognitionResult := { isFinal : bool; transcript : string }.

Record SpeechRecognitionEvent := {
  resultIndex : nat;
  results : list SpeechRecognitionResult
}.

(** The component's state and the content of [finalTranscriptRef], with
    the calls made to the [onSendMessage] prop so far, oldest first.
    [selectedLanguage] has the type ['en-US' | 'hi-IN' | 'te-IN'] in the
    source and is set from a [select] with these three options; it is
    kept as a string since [langMap] is indexed by strings, so that the
    fallback of the lookup can be stated. *)
Record State := mkState {
  input : string;
  isListening : bool;
  selectedLanguage : string;
  finalTranscriptRef : string;
  sent : list (string * string)
}.

Definition setInput (v : string) (st : State) : State :=
  {| input := v; isListening := isListening st;
     selectedLanguage := selectedLanguage st;
     finalTranscriptRef := finalTranscriptRef st; sent := sent st |}.

Definition setIsListening (b : bool) (st : State) : State :=
  {| input := input st; isListening := b;
     selectedLanguage := selectedLanguage st;
     finalTranscriptRef := finalTranscriptRef st; sent := sent st |}.

Definition setFinalTranscript (v : string) (st : State) : State :=
  {| input := input st; isListening := isListening st;
     selectedLanguage := selectedLanguage st;
     finalTranscriptRef := v; sent := sent st |}.

Definition onSendMessage (text lang : string) (st : State) : State :=
  {| input := input st; isListening := isListening st;
     selectedLanguage := selectedLanguage st;
     finalTranscriptRef := finalTranscriptRef st;
     sent := sent st ++ [(text, lang)] |}.

Definition langMap : gmap string string :=
  {[ "en-US" := "en"; "hi-IN" := "hi"; "te-IN" := "te" ]}.

(** [recognition.onresult] *)
Definition onresult (event : SpeechRecognitionEvent) (st : State) : State :=
  let '(finalTranscript, interimTranscript) :=
    foldl (λ '(f, i) r,
             if isFinal r then (f +:+ (transcript r +:+ " "), i)
             else (f, i +:+ transcript r))
          ("", "") (drop (resultIndex event) (results event)) in
  let st1 :=
    if Js.truthy finalTranscript
    then setFinalTranscript (finalTranscriptRef st +:+ finalTranscript) st
    else st in
  let displayText := finalTranscriptRef st1 +:+ interimTranscript in
  setInput (Js.trim displayText) st1.

(** [langMap[selectedLanguage] || 'en'], the value of [backendLang] in
    [onerror] and [onend]. *)
Definition backendLang (selectedLanguage : string) : string :=
  Js.or_else (langMap !! selectedLanguage) "en".

(** [recognition.onerror] and [recognition.onend] return the new state
    and the callback they hand to [setTimeout], if any. *)
Definition onerror (st : State) : State * option (State → State) :=
  let st1 := setIsListening false st in
  let transcriptToSend := Js.trim (finalTranscriptRef st1) in
  let st2 := setFinalTranscript "" st1 in
  if Js.truthy transcriptToSend then
    let lang := backendLang (selectedLanguage st2) in
    (st2, Some (λ st', setInput "" (onSendMessage transcriptToSend lang st')))
  else (st2, None).

Definition onend (st : State) : State * option (State → State) :=
  let st1 := setIsListening false st in
  let transcriptToSend := Js.trim (finalTranscriptRef st1) in
  if Js.truthy transcriptToSend then
    let lang := backendLang (selectedLanguage st1) in
    (st1, Some (λ st',
                  setFinalTranscript ""
                    (setInput "" (onSendMessage transcriptToSend lang st'))))
  else (setFinalTranscript "" st1, None).

(** The timer set by a handler fires: its callback runs on the state of
    that moment. *)
Definition fire (r : State * option (State → State)) : State :=
  match r.2 with
  | Some callback => callback r.1
  | None => r.1
  end.

(** The text of the final results of a list of results, each followed by
    a space, and the text of its interim results. *)
Definition finalText (rs : list SpeechRecognitionResult) : string :=
  foldr (λ r acc, if isFinal r then transcript r +:+ " " +:+ acc else acc) "" rs.

Definition interimText (rs : list SpeechRecognitionResult) : string :=
  foldr (λ r acc, if isFinal r then acc else transcript r +:+ acc) "" rs.

(** [handleSubmit] ([e.preventDefault()] has no effect on the state). *)
Definition handleSubmit (st : State) : State :=
  if Js.truthy (Js.trim (input st)) then
    let backendLang := Js.or_else (langMap !! selectedLanguage st) "auto" in
    setInput "" (onSendMessage (Js.trim (input st)) backendLang st)
  else st.

(** *** Starting and stopping a recognition session *)

(** The calls made on the recognition object. *)
Inductive RecognitionCall := Start | Stop.

(** [recognitionRef.current] is [None] on a platform without speech
    recognition; otherwise it tells whether its [start()] throws (as it
    does when a session is already open).  The functions return the new
    state and the calls they made on the recognition object. *)
Definition startListening (recognitionRef : option bool) (st : State)
    : State * list RecognitionCall :=
  match recognitionRef with
  | Some startThrows =>
      if negb (isListening st) then
        let st1 := setInput "" (setFinalTranscript "" st) in
        if startThrows then (st1, [Start])
        else (setIsListening true st1, [Start])
      else (st, [])
  | None => (st, [])
  end.

Definition stopListening (recognitionRef : option bool) (st : State)
    : State * list RecognitionCall :=
  match recognitionRef with
  | Some _ =>
      if isListening st then (setIsListening false st, [Stop]) else (st, [])
  | None => (st, [])
  end.

Definition handleMicClick (recognitionRef : option bool) (st : State)
    : State * list RecognitionCall :=
  if isListening st then stopListening recognitionRef st
  else startListening recognitionRef st.

(** *** Reading a reply aloud *)

(** [utterance_lang] is the value assigned to [utterance.lang]. *)
Record SpeechSynthesisUtterance := {
  utterance_text : string;
  utterance_lang : Js.Value;
  rate : QArith_base.Q;
  pitch : QArith_base.Q;
  volume : QArith_base.Q
}.

(** The own properties of the [langCodeMap] literal.  [speakText] reads
    it with [langCodeMap[lang]], which also answers the names the literal
    inherits. *)
Definition langCodeMap : gmap string string :=
  {[ "en" := "en-US"; "hi" := "hi-IN"; "te" := "te-IN"; "kn" := "te-IN" ]}.

(** The speech synthesizer is the queue of its utterances, the one being
    spoken first: [cancel()] removes them all, [speak(u)] adds [u] at the
    end. *)
Definition cancel (queue : list SpeechSynthesisUtterance)
    : list SpeechSynthesisUtterance := [].

Definition speak (u : SpeechSynthesisUtterance)
    (queue : list SpeechSynthesisUtterance) : list SpeechSynthesisUtterance :=
  queue ++ [u].

(** [synthRef.current] is [None] on a platform without speech synthesis. *)
Definition speakText (text lang : string)
    (synthRef : option (list SpeechSynthesisUtterance))
    : option (list SpeechSynthesisUtterance) :=
  match synthRef with
  | Some queue =>
      let utterance :=
        {| utterance_text := text;
           utterance_lang := Js.get_or langCodeMap lang "en-US";
           rate := QArith_base.Qmake 9 10;
           pitch := QArith_base.Qmake 1 1;
           volume := QArith_base.Qmake 1 1 |} in
      Some (speak utterance (cancel queue))
  | None => None
  end.

(** The "read aloud" button of a message: [None] when the button is not
    rendered, otherwise the arguments its click passes to [speakText]. *)
Definition speakButton (synthRef : option (list SpeechSynthesisUtterance))
    (message : Message.t) : option (string * string) :=
  match Message.sender message, synthRef with
  | bot, Some _ =>
      if Js.truthy (Message.text message)
      then Some (Message.text message, Js.or_else (Message.lang message) "en")
      else None
  | _, _ => None
  end.

End ChatArea.

(** ** The [Sidebar] component *)

Module Sidebar.

Section formatTime.

(** [date.toLocaleDateString()], which depends on the locale of the
    browser. *)
Variable toLocaleDateString : Z → string.

(** [formatTime(date)], [now] being the value of [new Date()]. *)
Definition formatTime (now date : Z) : string :=
  let diff := now - date in
  let minutes := diff / 60000 in
  let hours := diff / 3600000 in
  let days := diff / 86400000 in
  if minutes <? 1 then "Just now"
  else if minutes <? 60 then Js.toString minutes +:+ "m ago"
  else if hours <? 24 then Js.toString hours +:+ "h ago"
  else if days <? 7 then Js.toString days +:+ "d ago"
  else toLocaleDateString date.

End formatTime.

(** The ids that a click on an entry of the chat list passes to
    [onChatSelect]. *)
Definition selectable (chats : list Chat.t) : list string := Chat.id <$> chats.

(** The preview line of an entry is rendered when [chat.lastMessage] is
    truthy. *)
Definition preview (chat : Chat.t) : option string :=
  if Js.truthy (Chat.lastMessage chat) then Some (Chat.lastMessage chat) else None.

End Sidebar.

(** ** The event loop

    Handlers run to completion one after the other.  A world is the state
    of [App] together with the invocations of [handleSendMessage] that are
    suspended at their [await]; each has a ticket, the number of sends
    issued before it. *)

Module Session.
Import App.

Record World := mkWorld {
  ui : State;
  suspended : list (nat * Pending);
  next : nat
}.

Definition start : World := {| ui := initial; suspended := []; next := 0%nat |}.

(** What can happen: the "new chat" button is pressed, a chat is selected
    in the sidebar, [handleSendMessage] is called (through a handler whose
    closure holds [closure] as [activeChatId]) and runs up to its [await],
    or the backend call of a suspended invocation settles and the
    invocation runs to its end. *)
Inductive Event :=
| NewChat (now date : Z)
| SelectChat (id : string)
| Send (closure : option string) (text lang : string) (k : SendClock)
| Settle (ticket : nat) (outcome : Js.Thrown + Api.ChatResponse) (k : ResumeClock).

(** Takes the first suspended invocation with the given ticket out of the
    list. *)
Fixpoint take (ticket : nat) (l : list (nat * Pending))
    : option (Pending * list (nat * Pending)) :=
  match l with
  | [] => None
  | (t, p) :: l' =>
      if decide (t = ticket) then Some (p, l')
      else
        match take ticket l' with
        | Some (q, r) => Some (q, (t, p) :: r)
        | None => None
        end
  end.

Definition step (w : World) (e : Event) : World :=
  match e with
  | NewChat now date =>
      {| ui := handleNewChat now date (ui w);
         suspended := suspended w; next := next w |}
  | SelectChat id =>
      {| ui := setActiveChatId (Some id) (ui w);
         suspended := suspended w; next := next w |}
  | Send closure text lang k =>
      let r := handleSendMessage_begin closure text lang k (ui w) in
      {| ui := r.1; suspended := suspended w ++ [(next w, r.2)];
         next := S (next w) |}
  | Settle ticket outcome k =>
      match take ticket (suspended w) with
      | Some (p, rest) =>
          {| ui := handleSendMessage_resume p outcome k (ui w);
             suspended := rest; next := next w |}
      | None => w
      end
  end.

Definition exec (w : World) (es : list Event) : World := foldl step w es.

(** The messages shown for a chat: [messages[chatId] || []]. *)
Definition messagesOf (chatId : string) (w : World) : list Message.t :=
  sequenceOf chatId (messages (ui w)).

Definition loading (m : Message.t) : Prop := Message.isLoading m = Some true.

#[export] Instance loading_dec m : Decision (loading m).
Proof. unfold loading. apply _. Defined.

(** The suspended invocations that target a chat. *)
Definition suspendedOn (chatId : string) (w : World) : list Pending :=
  filter (λ p, App.chatId p = chatId) (suspended w).*2.

(** The ids of the placeholders shown in a chat, and the placeholder ids
    that the suspended invocations on this chat will resolve. *)
Definition loadingIds (chatId : string) (w : World) : list string :=
  Message.id <$> filter loading (messagesOf chatId w).

Definition awaitedIds (chatId : string) (w : World) : list string :=
  loadingMessageId <$> suspendedOn chatId w.




(** The two messages a send stores, and their ids. *)
Definition sendMessages (e : Event) : list Message.t :=
  match e with
  | Send _ text _ k =>
      [userMessage (now_user k) text (date_user k);
       loadingMessage (Js.toString (now_loading k + 1)) (date_loading k)]
  | _ => []
  end.


(** The message that takes the place of the placeholder. *)
Definition resolved (loadingMessageId : string)
    (outcome : Js.Thrown + Api.ChatResponse) (k : ResumeClock) : Message.t :=
  match outcome with
  | inr response => replyMessage loadingMessageId response (date_reply k)
  | inl error => errorReply loadingMessageId error (date_reply k)
  end.


(** An event generates fresh ids when the clock does not go back inside
    the handler, the id of a chat it creates is not yet a key of the
    conversation map, and the ids of the messages it stores are not yet
    ids of messages of the chat. *)
Definition fresh (w : World) (e : Event) : Prop :=
  match e with
  | NewChat now _ => messages (ui w) !! Js.toString now = None
  | Send a _ _ k =>
      now_user k ≤ now_loading k ∧
      (Js.truthy_opt a = false →
       messages (ui w) !! Js.toString (now_chat k) = None) ∧
      (Js.toString (now_user k) ∉ Message.id <$> messagesOf (targetChat a k) w) ∧
      (Js.toString (now_loading k + 1) ∉ Message.id <$> messagesOf (targetChat a k) w)
  | SelectChat _ | Settle _ _ _ => True
  end.

Fixpoint freshTrace (w : World) (es : list Event) : Prop :=
  match es with
  | [] => True
  | e :: es' => fresh w e ∧ freshTrace (step w e) es'
  end.

(** Every placeholder shown in a chat is awaited by a suspended invocation
    on that chat, counting multiplicities, and suspended invocations work
    on a truthy chatId. *)
Definition awaited (w : World) : Prop :=
  (∀ c, loadingIds c w ⊆+ awaitedIds c w) ∧
  Forall (λ tp, Js.truthy (chatId tp.2) = true) (suspended w).

Definition settles (ticket : nat) (e : Event) : Prop :=
  match e with
  | Settle t _ _ => t = ticket
  | _ => False
  end.

(** Tickets handed out so far are below [next], and every suspended
    invocation still finds the id of its placeholder in its chat. *)
Definition wellTicketed (w : World) : Prop :=
  Forall (λ tp, (tp.1 < next w)%nat) (suspended w) ∧
  ∀ t p, (t, p) ∈ suspended w →
         loadingMessageId p ∈ Message.id <$> messagesOf (chatId p) w.

(** The messages of a chat that carry a given id. *)
Definition withId (id : string) (l : list Message.t) : list Message.t :=
  filter (λ m, Message.id m = id) l.

(** What is known of the send with ticket [t], suspended as [p], in a
    session with fresh ids: its chat holds its user message [U] as the
    only message with that id, and [X] (the placeholder while the send is
    [present] among the suspended invocations, its replacement afterwards)
    as the only message with the placeholder id; no other suspended
    invocation on the chat awaits one of these two ids. *)
Definition tracked (t : nat) (p : Pending) (U X : Message.t) (present : bool)
    (w : World) : Prop :=
  (t < next w)%nat ∧
  filter (λ tp, tp.1 = t) (suspended w) = (if present then [(t, p)] else []) ∧
  withId (Message.id U) (messagesOf (chatId p) w) = [U] ∧
  withId (Message.id X) (messagesOf (chatId p) w) = [X] ∧
  ∀ t' p', (t', p') ∈ suspended w → t' ≠ t → chatId p' = chatId p →
           loadingMessageId p' ≠ Message.id U ∧ loadingMessageId p' ≠ Message.id X.

(** An event comes from the user interface when a selection picks an
    entry of the sidebar and the closure of a send holds no chat or a
    chat of the collection (a value [activeChatId] has had). *)
Definition fromUI (w : World) (e : Event) : Prop :=
  match e with
  | SelectChat id => id ∈ Sidebar.selectable (chats (ui w))
  | Send closure _ _ _ =>
      match closure with
      | Some c => c ∈ Chat.id <$> chats (ui w)
      | None => True
      end
  | NewChat _ _ | Settle _ _ _ => True
  end.

Fixpoint uiTrace (w : World) (es : list Event) : Prop :=
  match es with
  | [] => True
  | e :: es' => fromUI w e ∧ uiTrace (step w e) es'
  end.

(** The conversation map has a sequence exactly for the chats of the
    collection, and the active chat and the chats of the suspended
    invocations are chats of the collection. *)
Definition consistent (w : World) : Prop :=
  (∀ c, is_Some (messages (ui w) !! c) ↔ c ∈ Chat.id <$> chats (ui w)) ∧
  (∀ a, activeChatId (ui w) = Some a → a ∈ Chat.id <$> chats (ui w)) ∧
  (∀ t p, (t, p) ∈ suspended w → chatId p ∈ Chat.id <$> chats (ui w)).

(** [new] keeps the chats of [old], in their order and behind the chats
    added since, with their ids and with every title that was no longer
    the default one. *)
Definition keepsChats (old new : list Chat.t) : Prop :=
  ∃ added kept,
    new = added ++ kept ∧
    Forall2 (λ c c', Chat.id c' = Chat.id c ∧
                     (Chat.title c ≠ "New Chat" → Chat.title c' = Chat.title c))
            old kept.

(** The event creates a chat with this id. *)
Definition creates (chatId : string) (e : Event) : Prop :=
  match e with
  | NewChat now _ => Js.toString now = chatId
  | Send closure _ _ k =>
      Js.truthy_opt closure = false ∧ Js.toString (now_chat k) = chatId
  | SelectChat _ | Settle _ _ _ => False
  end.

(** Every message has one of the shapes the handlers build: a user
    message carries neither [isLoading] nor [lang], and a loading message
    is a bot message with an empty text. *)
Definition shaped (m : Message.t) : Prop :=
  (Message.sender m = user →
   Message.isLoading m = None ∧ Message.lang m = None) ∧
  (loading m → Message.sender m = bot ∧ Message.text m = "").

End Session.


(** * Properties *)

(** Closes a goal [x ∉ l] for an explicit list [l] of explicit values. *)
Ltac absent_from_list :=
  let H := fresh "H" in
  intros H;
  repeat (apply elem_of_cons in H as [H|H]; [done|]);
  by apply elem_of_nil in H.

(** ** Numerals *)

Lemma pretty_N_go_nonempty (x : N) (s : string) :
  s ≠ "" → pretty_N_go x s ≠ "".
Proof.
  revert s. induction (N.lt_wf_0 x) as [x _ IH]; intros s Hs.
  destruct (decide (x = 0%N)) as [->|Hx].
  - by rewrite pretty_N_go_0.
  - rewrite pretty_N_go_step by lia. apply IH; [|done].
    apply N.div_lt; lia.
Qed.

Lemma pretty_N_nonempty (x : N) : pretty x ≠ "".
Proof.
  unfold pretty, pretty_N. case_decide; [done|].
  rewrite pretty_N_go_step by lia. by apply pretty_N_go_nonempty.
Qed.

Lemma toString_truthy (n : Z) : Js.truthy (Js.toString n) = true.
Proof.
  unfold Js.toString, pretty, pretty_Z. destruct n as [|p|p]; [done| |done].
  pose proof (pretty_N_nonempty (Npos p)) as H.
  unfold pretty at 1, pretty_positive. by destruct (pretty (N.pos p)).
Qed.

Lemma toString_inj (m n : Z) : Js.toString m = Js.toString n → m = n.
Proof. apply (inj pretty). Qed.

Lemma truthy_nonempty (s : string) : Js.truthy s = true ↔ s ≠ "".
Proof. destruct s; simpl; split; congruence. Qed.

(** ** Strings *)

Lemma slice0_length (n : nat) (s : string) :
  (n ≤ String.length s)%nat → String.length (Js.slice0 n s) = n.
Proof.
  revert s. induction n as [|n IH]; intros [|a s] H; simpl in *; try lia; try done.
  rewrite IH; [done|lia].
Qed.

Lemma slice0_prefix (n : nat) (s : string) : ∃ rest, s = Js.slice0 n s +:+ rest.
Proof.
  revert s. induction n as [|n IH]; intros s.
  - exists s. by destruct s.
  - destruct s as [|a s]; [by exists ""|].
    destruct (IH s) as [rest Hr]. exists rest.
    change (String a s = String a (Js.slice0 n s +:+ rest)). by f_equal.
Qed.

(** ** The conversation map *)

Section updaters.
Import App.
Implicit Types (prev : gmap string (list Message.t)) (chatId : string).

Lemma sequenceOf_insert chatId c l prev :
  sequenceOf c (<[chatId := l]> prev) =
  if decide (chatId = c) then l else sequenceOf c prev.
Proof.
  unfold sequenceOf. rewrite lookup_insert. by case_decide.
Qed.

Lemma sequenceOf_appendMessage chatId c m prev :
  sequenceOf c (appendMessage chatId m prev) =
  if decide (chatId = c) then sequenceOf c prev ++ [m] else sequenceOf c prev.
Proof.
  unfold appendMessage. rewrite sequenceOf_insert. by case_decide; subst.
Qed.

Lemma sequenceOf_replaceMessage chatId c messageId m prev :
  sequenceOf c (replaceMessage chatId messageId m prev) =
  if decide (chatId = c)
  then (λ msg, if decide (Message.id msg = messageId) then m else msg)
         <$> sequenceOf c prev
  else sequenceOf c prev.
Proof.
  unfold replaceMessage. rewrite sequenceOf_insert. by case_decide; subst.
Qed.

Lemma sequenceOf_seedMessages chatId c m prev :
  sequenceOf c (seedMessages chatId m prev) =
  if decide (chatId = c) then [m] else sequenceOf c prev.
Proof. apply sequenceOf_insert. Qed.

End updaters.

(** ** The synchronous part of [handleSendMessage] *)

Lemma targetChat_truthy (a : option string) (k : App.SendClock) :
  Js.truthy (App.targetChat a k) = true.
Proof.
  unfold App.targetChat.
  destruct a as [x|]; [destruct (Js.truthy x) eqn:E|]; auto using toString_truthy.
Qed.

Section begin.
Import App.
Variables (a : option string) (text lang : string) (k : SendClock) (s : State).

Let r := handleSendMessage_begin a text lang k s.
Let c := targetChat a k.
Let U := userMessage (now_user k) text (date_user k).
Let P := loadingMessage (Js.toString (now_loading k + 1)) (date_loading k).


Lemma begin_pending :
  r.2 = {| chatId := c; loadingMessageId := Js.toString (now_loading k + 1);
           App.text := text; App.lang := lang |}.
Proof.
  subst r c. unfold handleSendMessage_begin, targetChat.
  destruct a as [x|]; [destruct (Js.truthy x) eqn:E|]; done.
Qed.

Lemma begin_messages :
  messages r.1 =
  appendMessage c P
    (if Js.truthy_opt a then appendMessage c U (messages s)
     else seedMessages c U (messages s)).
Proof.
  subst r c U P. unfold handleSendMessage_begin, targetChat.
  destruct a as [x|]; [destruct (Js.truthy x) eqn:E|]; simpl;
    rewrite ?E, ?toString_truthy; done.
Qed.

Lemma begin_chats :
  chats r.1 =
  updateChatSummary c text (date_summary k)
    (if Js.truthy_opt a then chats s
     else newChat (now_chat k) (date_chat k) :: chats s).
Proof.
  subst r c. unfold handleSendMessage_begin, targetChat.
  destruct a as [x|]; [destruct (Js.truthy x) eqn:E|]; simpl;
    rewrite ?E, ?toString_truthy; done.
Qed.

Lemma begin_activeChatId :
  activeChatId r.1 = if Js.truthy_opt a then activeChatId s else Some c.
Proof.
  subst r c. unfold handleSendMessage_begin, targetChat.
  destruct a as [x|]; [destruct (Js.truthy x) eqn:E|]; simpl;
    rewrite ?E, ?toString_truthy; done.
Qed.

(** The sequence of the target chat after the synchronous part: what was
    there (nothing, for a chat just created), the user message, the
    placeholder. *)
Lemma begin_sequence :
  sequenceOf c (messages r.1) =
  (if Js.truthy_opt a then sequenceOf c (messages s) else []) ++ [U; P].
Proof.
  rewrite begin_messages, sequenceOf_appendMessage, decide_True by done.
  destruct (Js.truthy_opt a).
  - rewrite sequenceOf_appendMessage, decide_True by done.
    by rewrite <-app_assoc.
  - by rewrite sequenceOf_seedMessages, decide_True.
Qed.

Lemma begin_sequence_other c' :
  c' ≠ c → sequenceOf c' (messages r.1) = sequenceOf c' (messages s).
Proof.
  intros Hc. rewrite begin_messages, sequenceOf_appendMessage, decide_False by done.
  destruct (Js.truthy_opt a).
  - by rewrite sequenceOf_appendMessage, decide_False.
  - by rewrite sequenceOf_seedMessages, decide_False.
Qed.

End begin.

(** ** Chat summary *)

(** C5.  The summary update applied to a chat that still has the default
    title "New Chat", with a text of more than 30 characters, sets the
    title to the first 30 characters of the text followed by "..." and
    sets [lastMessage] to the whole text; applied to a chat whose title is
    not the default, it keeps the title (and the id) and sets only
    [lastMessage] and [timestamp]. *)
Theorem updateChatSummary_title (prevChats : list Chat.t) (i : nat)
    (chat : Chat.t) (text : string) (date : Z) :
  prevChats !! i = Some chat →
  let updated := App.updateChatSummary (Chat.id chat) text date prevChats in
  (Chat.title chat = "New Chat" → (30 < String.length text)%nat →
   ∃ first30 rest,
     text = first30 +:+ rest ∧ String.length first30 = 30%nat ∧
     updated !! i =
       Some {| Chat.id := Chat.id chat; Chat.title := first30 +:+ "...";
               Chat.lastMessage := text; Chat.timestamp := date |}) ∧
  (Chat.title chat ≠ "New Chat" →
   updated !! i =
     Some {| Chat.id := Chat.id chat; Chat.title := Chat.title chat;
             Chat.lastMessage := text; Chat.timestamp := date |}).
Proof.
  intros Hi updated. subst updated. unfold App.updateChatSummary.
  rewrite list_lookup_fmap, Hi. simpl. split.
  - intros Ht Hlen. destruct (slice0_prefix 30 text) as [rest Hrest].
    exists (Js.slice0 30 text), rest. split; [done|].
    split; [apply slice0_length; lia|].
    rewrite decide_True by done. by rewrite decide_True.
  - intros Ht. rewrite decide_False by tauto. by rewrite decide_True.
Qed.

Lemma updateChatSummary_title_witness :
  let chat := {| Chat.id := "7"; Chat.title := "New Chat";
                 Chat.lastMessage := ""; Chat.timestamp := 1 |} in
  let text := "What are the symptoms of dengue fever?" in
  ∃ first30 rest,
    text = first30 +:+ rest ∧ String.length first30 = 30%nat ∧
    App.updateChatSummary "7" text 9 [chat] !! 0%nat =
      Some {| Chat.id := "7"; Chat.title := first30 +:+ "...";
              Chat.lastMessage := text; Chat.timestamp := 9 |}.
Proof.
  intros chat text.
  exact (proj1 (updateChatSummary_title [chat] 0 chat text 9 eq_refl)
           eq_refl ltac:(vm_compute; lia)).
Defined.

(** ** Appending to a chat that has no sequence yet *)

(** C8, as the code has it.  Appending a message under a chatId that is
    not a key of the conversation map creates the key, with a sequence
    that holds just this message; the sequences of the other keys are what
    they were, and the chat collection is not touched. *)
Theorem appendMessage_unknown_chat (s : App.State) (chatId : string)
    (message : Message.t) :
  App.messages s !! chatId = None →
  let s' := App.setMessages (App.appendMessage chatId message) s in
  App.messages s' = <[chatId := [message]]> (App.messages s) ∧
  App.messages s' !! chatId = Some [message] ∧
  (∀ c, c ≠ chatId → App.messages s' !! c = App.messages s !! c) ∧
  App.chats s' = App.chats s.
Proof.
  intros Hnone s'. subst s'. simpl. unfold App.appendMessage, App.sequenceOf.
  rewrite Hnone. simpl. split; [done|]. split; [apply lookup_insert_eq|].
  split; [|done]. intros c Hc. by apply lookup_insert_ne.
Qed.

Lemma appendMessage_unknown_chat_witness :
  App.messages
    (App.setMessages
       (App.appendMessage "42" (App.userMessage 42 "hi" 42)) App.initial)
    !! "42" = Some [App.userMessage 42 "hi" 42].
Proof.
  apply (appendMessage_unknown_chat App.initial "42"
           (App.userMessage 42 "hi" 42)).
  reflexivity.
Defined.

(** C8 as stated fails: on the empty conversation map, appending under the
    unknown chatId "42" changes the map and creates the key "42"; the same
    happens through [handleSendMessage] when the active chat has no
    sequence. *)
Lemma appendMessage_unknown_chat_creates_key :
  let prev : gmap string (list Message.t) := ∅ in
  let m := App.userMessage 42 "hi" 42 in
  prev !! "42" = None ∧
  App.appendMessage "42" m prev ≠ prev ∧
  App.appendMessage "42" m prev !! "42" = Some [m] ∧
  App.messages
    (App.handleSendMessage_begin (Some "42") "hi" "auto"
       {| App.now_chat := 42; App.date_chat := 42; App.now_user := 42;
          App.date_user := 42; App.date_summary := 42;
          App.now_loading := 42; App.date_loading := 42 |} App.initial).1
    !! "42" = Some [m; App.loadingMessage "43" 42].
Proof.
  intros prev m. split; [done|]. split; [|split; [done|by vm_compute]].
  intros H. assert (App.appendMessage "42" m prev !! "42" = prev !! "42") as E
    by (by rewrite H).
  by vm_compute in E.
Qed.

(** ** The loading placeholder *)

(** C9.  Every invocation appends, after its user message, a placeholder
    bot message with [isLoading = true] and an empty text, and when the
    clock does not go back between the two readings the id of the
    placeholder differs from the id of the user message. *)
Theorem placeholder_appended_with_fresh_id (a : option string)
    (text lang : string) (k : App.SendClock) (s : App.State) :
  App.now_user k ≤ App.now_loading k →
  let r := App.handleSendMessage_begin a text lang k s in
  ∃ before userMessage placeholder,
    App.sequenceOf (App.chatId r.2) (App.messages r.1) =
      before ++ [userMessage; placeholder] ∧
    Message.sender userMessage = user ∧
    Message.text userMessage = text ∧
    Message.sender placeholder = bot ∧
    Message.isLoading placeholder = Some true ∧
    Message.text placeholder = "" ∧
    Message.id placeholder = App.loadingMessageId r.2 ∧
    Message.id placeholder ≠ Message.id userMessage.
Proof.
  intros Hclock r. subst r. rewrite begin_pending. simpl.
  eexists _, _, _. split; [apply begin_sequence|].
  repeat split. simpl. intros E%toString_inj. lia.
Qed.

Lemma placeholder_appended_with_fresh_id_witness :
  ∃ before userMessage placeholder,
    App.sequenceOf "1000"
      (App.messages
         (App.handleSendMessage_begin None "Hello" "auto"
            {| App.now_chat := 1000; App.date_chat := 1000;
               App.now_user := 1000; App.date_user := 1000;
               App.date_summary := 1000;
               App.now_loading := 1000; App.date_loading := 1000 |}
            App.initial).1) =
      before ++ [userMessage; placeholder] ∧
    Message.isLoading placeholder = Some true ∧
    Message.id placeholder ≠ Message.id userMessage.
Proof.
  destruct (placeholder_appended_with_fresh_id None "Hello" "auto"
              {| App.now_chat := 1000; App.date_chat := 1000;
                 App.now_user := 1000; App.date_user := 1000;
                 App.date_summary := 1000;
                 App.now_loading := 1000; App.date_loading := 1000 |}
              App.initial ltac:(simpl; lia))
    as (before & u & p & Hseq & _ & _ & _ & Hload & _ & _ & Hne).
  exists before, u, p. split; [exact Hseq|]. split; [exact Hload|exact Hne].
Defined.

(** ** Resolving the placeholder *)

(** C10.  Resuming an invocation, with a reply or with a failure, keeps
    the length of every chat's sequence, and every message that is in
    another chat or whose id is not the placeholder id stays at its
    position, unchanged. *)
Theorem resume_substitutes_in_place (p : App.Pending)
    (outcome : Js.Thrown + Api.ChatResponse) (k : App.ResumeClock)
    (s : App.State) (c : string) :
  let before := App.sequenceOf c (App.messages s) in
  let after :=
    App.sequenceOf c (App.messages (App.handleSendMessage_resume p outcome k s)) in
  length after = length before ∧
  ∀ (i : nat) (m : Message.t),
    before !! i = Some m →
    c ≠ App.chatId p ∨ Message.id m ≠ App.loadingMessageId p →
    after !! i = Some m.
Proof.
  intros before after. subst before after.
  assert (
    App.sequenceOf c (App.messages (App.handleSendMessage_resume p outcome k s))
    = App.sequenceOf c (App.messages s) ∨
    ∃ m', App.chatId p = c ∧
      App.sequenceOf c (App.messages (App.handleSendMessage_resume p outcome k s))
      = (λ msg, if decide (Message.id msg = App.loadingMessageId p)
                then m' else msg) <$> App.sequenceOf c (App.messages s))
    as Hcases.
  { unfold App.handleSendMessage_resume.
    destruct outcome as [e|resp]; destruct (Js.truthy (App.chatId p)); simpl;
      rewrite ?sequenceOf_replaceMessage; try case_decide; eauto. }
  destruct Hcases as [->|(m' & Hc & ->)]; [done|].
  split; [by rewrite length_fmap|].
  intros i m Hi Hm. rewrite list_lookup_fmap, Hi. simpl.
  rewrite decide_False; [done|]. destruct Hm; congruence.
Qed.

Lemma resume_substitutes_in_place_witness :
  let s := (App.handleSendMessage_begin None "Hello" "auto"
              {| App.now_chat := 1000; App.date_chat := 1000;
                 App.now_user := 1000; App.date_user := 1000;
                 App.date_summary := 1000;
                 App.now_loading := 1000; App.date_loading := 1000 |}
              App.initial) in
  App.sequenceOf "1000"
    (App.messages
       (App.handleSendMessage_resume s.2
          (inr {| Api.reply := "Hi"; Api.lang := "en" |})
          {| App.date_reply := 1500; App.date_last := 1500 |} s.1)) !! 0%nat
  = Some (App.userMessage 1000 "Hello" 1000).
Proof.
  intros s.
  apply (resume_substitutes_in_place s.2
           (inr {| Api.reply := "Hi"; Api.lang := "en" |})
           {| App.date_reply := 1500; App.date_last := 1500 |} s.1 "1000").
  - by vm_compute.
  - right. by vm_compute.
Defined.

(** ** The backend client *)

Lemma run_sendMessage (vite : option string) (query lang : string)
    (net : nat → Api.Request → Api.FetchResult) :
  Api.run (Api.sendMessage vite query lang) net [] =
  ([Api.chat_request vite query lang],
   match net 0%nat (Api.chat_request vite query lang) with
   | Api.Rejected e => inl (Api.normalize e)
   | Api.Fulfilled resp =>
       if Api.ok resp then
         match Api.json resp with
         | inr data => inr data
         | inl e => inl (Api.normalize e)
         end
       else inl (Api.normalize (Api.http_error resp))
   end).
Proof.
  unfold Api.sendMessage, Api.fetch, mbind, Api.Async_bind. simpl.
  destruct (net 0%nat _) as [e|resp]; simpl; [done|].
  unfold Api.response_json.
  destruct (Api.ok resp); simpl; [|done].
  by destruct (Api.json resp).
Qed.

(** A failure of [sendMessage] is always an [Error] whose message is
    produced by the [catch] clause. *)
Lemma sendMessage_failure_is_Error vite query lang net error :
  (Api.run (Api.sendMessage vite query lang) net []).2 = inl error →
  ∃ cause, error = Api.normalize cause.
Proof.
  rewrite run_sendMessage. simpl.
  destruct (net 0%nat _) as [e|resp]; [intros [= <-]; eauto|].
  destruct (Api.ok resp); [|intros [= <-]; eauto].
  destruct (Api.json resp); [intros [= <-]; eauto|done].
Qed.

(** C6, as the code has it.  One call of [sendMessage] issues exactly one
    request, the POST to [/chat] carrying the query and the language.  It
    returns the parsed body exactly when the request is answered with a
    status in 200-299 and the body parses; it fails when the request is
    rejected, when the status is outside 200-299, and also when the body
    of a successful response does not parse.  Every failure is an [Error]
    whose message is "Failed to get response: " followed by the message of
    the cause when the cause is an [Error] (for a bad status, "HTTP error!
    status: " and the status), and a fixed message otherwise. *)
Theorem sendMessage_single_attempt (vite : option string) (query lang : string)
    (net : nat → Api.Request → Api.FetchResult) :
  let req := Api.chat_request vite query lang in
  let r := Api.run (Api.sendMessage vite query lang) net [] in
  r.1 = [req] ∧
  Api.method req = "POST" ∧
  Api.body req = {| Api.query := query; Api.req_lang := lang |} ∧
  (∀ data, r.2 = inr data ↔
     ∃ resp, net 0%nat req = Api.Fulfilled resp ∧ Api.ok resp = true ∧
             Api.json resp = inr data) ∧
  (∀ error, r.2 = inl error ↔
     ∃ cause, error = Api.normalize cause ∧
       (net 0%nat req = Api.Rejected cause ∨
        ∃ resp, net 0%nat req = Api.Fulfilled resp ∧
          (Api.ok resp = false ∧
           cause = Js.ErrorObj ("HTTP error! status: " +:+
                                Js.toString (Api.status resp)) ∨
           Api.ok resp = true ∧ Api.json resp = inl cause))) ∧
  (∀ message,
     Api.normalize (Js.ErrorObj message) =
     Js.ErrorObj ("Failed to get response: " +:+ message)) ∧
  Api.normalize Js.NonError =
    Js.ErrorObj
      "Failed to get response from server. Please check if the backend is running.".
Proof.
  intros req r. subst r req. rewrite run_sendMessage. simpl.
  split; [done|]. split; [done|]. split; [done|].
  split; [|split; [|done]].
  - intros data. split.
    + destruct (net 0%nat _) as [e|resp]; [done|].
      destruct (Api.ok resp) eqn:Hok; [|done].
      destruct (Api.json resp) eqn:Hj; [done|].
      intros [= ->]. by exists resp.
    + intros (resp & -> & -> & ->). done.
  - intros error. unfold Api.http_error. split.
    + destruct (net 0%nat _) as [e|resp].
      { intros [= <-]. exists e. split; [done|by left]. }
      destruct (Api.ok resp) eqn:Hok.
      * destruct (Api.json resp) as [e|data] eqn:Hj; [|done].
        intros [= <-]. exists e. split; [done|]. right. exists resp. auto.
      * intros [= <-]. eexists. split; [done|]. right. exists resp. auto.
    + intros (cause & -> & [->|(resp & -> & [[-> ->]|[-> ->]])]); done.
Qed.

(** C6 as stated fails: a response with status 200 whose body is not JSON
    makes [sendMessage] fail, although the network call completed and the
    status is in the success range. *)
Lemma sendMessage_fails_on_unparsable_body :
  let resp := {| Api.status := 200;
                 Api.json := inl (Js.ErrorObj "Unexpected token < in JSON at position 0") |} in
  let net := λ (_ : nat) (_ : Api.Request), Api.Fulfilled resp in
  Api.ok resp = true ∧
  Api.run (Api.sendMessage None "What is dengue?" "en") net [] =
    ([Api.chat_request None "What is dengue?" "en"],
     inl (Js.ErrorObj
            "Failed to get response: Unexpected token < in JSON at position 0")).
Proof. by vm_compute. Qed.

(** ** Failure of the backend call *)

(** C3, as the code has it.  When the backend call of a send fails, the
    resumed invocation replaces every message of its chat that has the
    placeholder id by a bot message that is not loading and whose text is
    "Sorry, I encountered an error: ", the message of the failure and
    ". Please make sure the backend server is running."; it leaves the
    chat collection, hence the title, [lastMessage] and [timestamp] of
    every chat, as they were when the failure arrived.  When nothing else
    happened since the send began, these are the values that the summary
    update made before the backend call has set from the user's text. *)
Theorem failed_send_keeps_summary (vite : option string)
    (net : nat → Api.Request → Api.FetchResult)
    (a : option string) (text lang : string) (k : App.SendClock)
    (s0 s : App.State) (kr : App.ResumeClock) (error : Js.Thrown) :
  let p := (App.handleSendMessage_begin a text lang k s0).2 in
  (Api.run (Api.sendMessage vite (App.text p) (App.lang p)) net []).2 = inl error →
  let s' := App.handleSendMessage_resume p (inl error) kr s in
  let replacement := App.errorReply (App.loadingMessageId p) error (App.date_reply kr) in
  App.chats s' = App.chats s ∧
  App.sequenceOf (App.chatId p) (App.messages s') =
    (λ msg, if decide (Message.id msg = App.loadingMessageId p)
            then replacement else msg)
      <$> App.sequenceOf (App.chatId p) (App.messages s) ∧
  Message.id replacement = App.loadingMessageId p ∧
  Message.sender replacement = bot ∧
  Message.isLoading replacement = None ∧
  (∃ message,
     error = Js.ErrorObj message ∧
     Message.text replacement =
       "Sorry, I encountered an error: " +:+ message +:+
       ". Please make sure the backend server is running.") ∧
  (s = (App.handleSendMessage_begin a text lang k s0).1 →
   App.chats s' =
     App.updateChatSummary (App.targetChat a k) text (App.date_summary k)
       (if Js.truthy_opt a then App.chats s0
        else App.newChat (App.now_chat k) (App.date_chat k) :: App.chats s0)).
Proof.
  intros p Hfail s' replacement.
  apply sendMessage_failure_is_Error in Hfail as [cause ->].
  pose proof (begin_pending a text lang k s0) as Hp. fold p in Hp.
  assert (App.chats s' = App.chats s) as Hchats.
  { subst s'. clearbody p. subst p. unfold App.handleSendMessage_resume.
    simpl. by rewrite targetChat_truthy. }
  split; [done|]. split.
  { subst s' replacement. clearbody p. subst p.
    unfold App.handleSendMessage_resume. simpl. rewrite targetChat_truthy.
    simpl. by rewrite sequenceOf_replaceMessage, decide_True. }
  do 3 (split; [done|]). split; [by eexists|].
  intros ->. rewrite Hchats. apply begin_chats.
Qed.

Lemma failed_send_keeps_summary_witness :
  let k := {| App.now_chat := 1000; App.date_chat := 1000;
              App.now_user := 1000; App.date_user := 1000;
              App.date_summary := 1000;
              App.now_loading := 1000; App.date_loading := 1000 |} in
  let net := λ (_ : nat) (_ : Api.Request),
               Api.Fulfilled {| Api.status := 500; Api.json := inl Js.NonError |} in
  let error := Js.ErrorObj "Failed to get response: HTTP error! status: 500" in
  let r := App.handleSendMessage_begin None "Hello" "auto" k App.initial in
  App.chats (App.handleSendMessage_resume r.2 (inl error)
               {| App.date_reply := 1500; App.date_last := 1500 |} r.1)
  = App.chats r.1.
Proof.
  intros k net error r.
  refine (proj1 (failed_send_keeps_summary None net None "Hello" "auto" k
                   App.initial r.1
                   {| App.date_reply := 1500; App.date_last := 1500 |} error _)).
  by vm_compute.
Defined.

(** C3 as stated fails.  A chat is created at time 1000 and "Hello" is
    sent in it at time 2000; the backend answers with status 500.  After
    the failure has been handled the placeholder carries the error text,
    but the chat's title, [lastMessage] and [timestamp] are those set by
    the send, not those the chat had before the send began. *)
Lemma failed_send_changes_summary :
  let before := App.handleNewChat 1000 1000 App.initial in
  let k := {| App.now_chat := 2000; App.date_chat := 2000;
              App.now_user := 2000; App.date_user := 2000;
              App.date_summary := 2000;
              App.now_loading := 2000; App.date_loading := 2000 |} in
  let r := App.handleSendMessage_begin (App.activeChatId before)
             "Hello" "auto" k before in
  let net := λ (_ : nat) (_ : Api.Request),
               Api.Fulfilled {| Api.status := 500; Api.json := inl Js.NonError |} in
  let outcome := (Api.run (Api.sendMessage None "Hello" "auto") net []).2 in
  let after := App.handleSendMessage_resume r.2 outcome
                 {| App.date_reply := 2500; App.date_last := 2500 |} r.1 in
  outcome = inl (Js.ErrorObj "Failed to get response: HTTP error! status: 500") ∧
  App.chats before =
    [ {| Chat.id := "1000"; Chat.title := "New Chat";
         Chat.lastMessage := ""; Chat.timestamp := 1000 |} ] ∧
  App.chats after =
    [ {| Chat.id := "1000"; Chat.title := "Hello";
         Chat.lastMessage := "Hello"; Chat.timestamp := 2000 |} ] ∧
  App.chats after ≠ App.chats before.
Proof. by vm_compute. Qed.

(** ** Voice input *)

Lemma langMap_lookup (tag : string) :
  ChatArea.langMap !! tag =
  if decide (tag = "en-US") then Some "en"
  else if decide (tag = "hi-IN") then Some "hi"
  else if decide (tag = "te-IN") then Some "te"
  else None.
Proof.
  unfold ChatArea.langMap.
  repeat case_decide; subst; try by vm_compute.
  rewrite !lookup_insert_ne by done. by apply lookup_singleton_ne.
Qed.

Lemma backendLang_cases (tag : string) :
  ChatArea.backendLang tag =
  if decide (tag = "en-US") then "en"
  else if decide (tag = "hi-IN") then "hi"
  else if decide (tag = "te-IN") then "te"
  else "en".
Proof.
  unfold ChatArea.backendLang. rewrite langMap_lookup.
  by repeat case_decide.
Qed.

(** C7, as the code has it.  When a recognition session ends and the
    accumulated final transcript is not empty once white space is trimmed
    from its ends, the callback handed to the timer issues one send, with
    the trimmed transcript and the language code of the selected tag
    ("en-US" gives "en", "hi-IN" gives "hi", "te-IN" gives "te", any other
    tag gives "en"), and then clears the input and the transcript buffer.
    When the trimmed transcript is empty nothing is sent and the buffer is
    cleared.  With the transcript "what are the symptoms of fever" and
    the tag "hi-IN" the send carries the language "hi". *)
Theorem onend_sends_trimmed_transcript (st : ChatArea.State) :
  let transcript := Js.trim (ChatArea.finalTranscriptRef st) in
  let st' := ChatArea.fire (ChatArea.onend st) in
  (transcript ≠ "" →
   ChatArea.sent st' =
     ChatArea.sent st ++
       [(transcript, ChatArea.backendLang (ChatArea.selectedLanguage st))]) ∧
  (transcript = "" → ChatArea.sent st' = ChatArea.sent st) ∧
  ChatArea.finalTranscriptRef st' = "" ∧
  ChatArea.isListening st' = false ∧
  ChatArea.backendLang "en-US" = "en" ∧
  ChatArea.backendLang "hi-IN" = "hi" ∧
  ChatArea.backendLang "te-IN" = "te" ∧
  (∀ tag, tag ≠ "en-US" → tag ≠ "hi-IN" → tag ≠ "te-IN" →
          ChatArea.backendLang tag = "en") ∧
  (ChatArea.finalTranscriptRef st = "what are the symptoms of fever" →
   ChatArea.selectedLanguage st = "hi-IN" →
   ChatArea.sent st' =
     ChatArea.sent st ++ [("what are the symptoms of fever", "hi")]).
Proof.
  intros transcript st'.
  assert (ChatArea.finalTranscriptRef st' = "" ∧
          ChatArea.isListening st' = false ∧
          ChatArea.sent st' =
            if Js.truthy transcript
            then ChatArea.sent st ++
                   [(transcript, ChatArea.backendLang (ChatArea.selectedLanguage st))]
            else ChatArea.sent st) as (Hbuf & Hlisten & Hsent).
  { subst st' transcript. unfold ChatArea.fire, ChatArea.onend. simpl.
    by destruct (Js.truthy (Js.trim (ChatArea.finalTranscriptRef st))). }
  split; [|split; [|split; [done|split; [done|]]]].
  - intros Hne. apply truthy_nonempty in Hne. by rewrite Hsent, Hne.
  - intros He. by rewrite Hsent, He.
  - do 3 (split; [by vm_compute|]). split.
    + intros tag H1 H2 H3. rewrite backendLang_cases.
      by rewrite !decide_False.
    + intros Hbuf' Hsel. rewrite Hsent. subst transcript.
      rewrite Hbuf', Hsel. by vm_compute.
Qed.

Lemma onend_sends_trimmed_transcript_witness :
  let st := {| ChatArea.input := "what are the symptoms of fever";
               ChatArea.isListening := true;
               ChatArea.selectedLanguage := "hi-IN";
               ChatArea.finalTranscriptRef := "what are the symptoms of fever ";
               ChatArea.sent := [] |} in
  ChatArea.sent (ChatArea.fire (ChatArea.onend st)) =
    [("what are the symptoms of fever", "hi")] ∧
  ChatArea.finalTranscriptRef (ChatArea.fire (ChatArea.onend st)) = "".
Proof.
  intros st.
  destruct (onend_sends_trimmed_transcript st) as (Hsend & _ & Hbuf & _).
  split; [|exact Hbuf].
  exact (Hsend ltac:(by vm_compute)).
Defined.

(** C7 as stated fails.  A final result with an empty transcript leaves
    the buffer holding one space: the accumulated transcript is not empty,
    yet the end of the session sends nothing.  And after a final result
    "fever" the buffer is "fever " while the send carries "fever". *)
Lemma onend_blank_transcript_sends_nothing :
  let idle := {| ChatArea.input := ""; ChatArea.isListening := true;
                 ChatArea.selectedLanguage := "hi-IN";
                 ChatArea.finalTranscriptRef := ""; ChatArea.sent := [] |} in
  let heard t :=
    ChatArea.onresult
      {| ChatArea.resultIndex := 0;
         ChatArea.results := [ {| ChatArea.isFinal := true;
                                  ChatArea.transcript := t |} ] |} idle in
  ChatArea.finalTranscriptRef (heard "") = " " ∧
  ChatArea.finalTranscriptRef (heard "") ≠ "" ∧
  ChatArea.sent (ChatArea.fire (ChatArea.onend (heard ""))) = [] ∧
  ChatArea.finalTranscriptRef (heard "fever") = "fever " ∧
  ChatArea.sent (ChatArea.fire (ChatArea.onend (heard "fever"))) =
    [("fever", "hi")].
Proof. by vm_compute. Qed.

(** ** The event loop: how each event acts on the sequences *)

Section events.
Import App Session.
Implicit Types (w : World) (c : string) (e : Event).

Lemma take_Some ticket (l : list (nat * Pending)) p rest :
  take ticket l = Some (p, rest) →
  ∃ l1 l2, l = l1 ++ (ticket, p) :: l2 ∧ rest = l1 ++ l2 ∧ ticket ∉ l1.*1.
Proof.
  revert p rest. induction l as [|[t q] l IH]; intros p rest; simpl; [done|].
  case_decide as Ht.
  - intros [= -> <-]. subst. exists [], l. split; [done|]. split; [done|].
    apply not_elem_of_nil.
  - destruct (take ticket l) as [[q' r]|] eqn:E; [|done].
    intros [= -> <-]. destruct (IH _ _ eq_refl) as (l1 & l2 & -> & -> & Hl1).
    exists ((t, q) :: l1), l2. split; [done|]. split; [done|].
    simpl. rewrite not_elem_of_cons. done.
Qed.

Lemma take_None ticket (l : list (nat * Pending)) :
  take ticket l = None ↔ ticket ∉ l.*1.
Proof.
  induction l as [|[t q] l IH]; simpl.
  - split; [intros _; apply not_elem_of_nil|done].
  - rewrite not_elem_of_cons. case_decide as Ht.
    + split; [done|]. intros [? _]. congruence.
    + destruct (take ticket l) as [[q' r]|] eqn:E.
      * split; [done|]. intros [_ H]. by apply IH in H.
      * split; [|done]. intros _. split; [congruence|]. by apply IH.
Qed.

Lemma resolved_id L outcome k : Message.id (resolved L outcome k) = L.
Proof. by destruct outcome. Qed.

Lemma resolved_not_loading L outcome k : ¬ loading (resolved L outcome k).
Proof. by destruct outcome. Qed.

Lemma resume_sequence p outcome k s c :
  sequenceOf c (messages (handleSendMessage_resume p outcome k s)) =
  if decide (chatId p = c ∧ Js.truthy (chatId p) = true)
  then (λ msg, if decide (Message.id msg = loadingMessageId p)
               then resolved (loadingMessageId p) outcome k else msg)
         <$> sequenceOf c (messages s)
  else sequenceOf c (messages s).
Proof.
  unfold handleSendMessage_resume.
  destruct outcome as [error|response]; destruct (Js.truthy (chatId p)) eqn:E; simpl;
    rewrite ?sequenceOf_replaceMessage; repeat case_decide;
    try done; try (destruct_and?; congruence); tauto.
Qed.

Lemma messagesOf_NewChat w now date c :
  messagesOf c (step w (NewChat now date)) =
  if decide (Js.toString now = c) then [] else messagesOf c w.
Proof. unfold messagesOf. simpl. apply sequenceOf_insert. Qed.

Lemma messagesOf_SelectChat w id c :
  messagesOf c (step w (SelectChat id)) = messagesOf c w.
Proof. done. Qed.

Lemma messagesOf_Send w a text lang k c :
  messagesOf c (step w (Send a text lang k)) =
  if decide (c = targetChat a k)
  then (if Js.truthy_opt a then messagesOf c w else [])
       ++ sendMessages (Send a text lang k)
  else messagesOf c w.
Proof.
  unfold messagesOf. simpl. case_decide as Hc.
  - subst c. apply begin_sequence.
  - by apply begin_sequence_other.
Qed.

Lemma messagesOf_Settle w ticket outcome k c p rest :
  take ticket (suspended w) = Some (p, rest) →
  messagesOf c (step w (Settle ticket outcome k)) =
  if decide (chatId p = c ∧ Js.truthy (chatId p) = true)
  then (λ msg, if decide (Message.id msg = loadingMessageId p)
               then resolved (loadingMessageId p) outcome k else msg)
         <$> messagesOf c w
  else messagesOf c w.
Proof.
  intros Ht. unfold messagesOf. simpl. rewrite Ht. simpl. apply resume_sequence.
Qed.

Lemma step_Settle_None w ticket outcome k :
  take ticket (suspended w) = None → step w (Settle ticket outcome k) = w.
Proof. intros Ht. simpl. by rewrite Ht. Qed.

(** Replacing by id never changes the ids of a sequence. *)
Lemma replace_ids (L : string) (m' : Message.t) (l : list Message.t) :
  Message.id m' = L →
  Message.id <$> ((λ msg, if decide (Message.id msg = L) then m' else msg) <$> l)
  = Message.id <$> l.
Proof.
  intros Hm. rewrite <-list_fmap_compose. apply list_fmap_ext.
  intros i m _. simpl. case_decide; congruence.
Qed.

Lemma messagesOf_Settle_ids w ticket outcome k c :
  Message.id <$> messagesOf c (step w (Settle ticket outcome k)) =
  Message.id <$> messagesOf c w.
Proof.
  destruct (take ticket (suspended w)) as [[p rest]|] eqn:Ht.
  - rewrite (messagesOf_Settle _ _ _ _ _ _ _ Ht). case_decide; [|done].
    apply replace_ids, resolved_id.
  - by rewrite step_Settle_None.
Qed.

End events.

(** ** Placeholders and suspended invocations *)

Section placeholders.
Import App Session.
Implicit Types (w : World) (c : string) (e : Event).

Lemma submseteq_filter_mono {A} (P : A → Prop) `{!∀ x, Decision (P x)}
    (l k : list A) :
  l ⊆+ k → filter P l ⊆+ filter P k.
Proof.
  induction 1 as [|x l k _ IH|x y l|x l k _ IH|l k m _ IH1 _ IH2];
    rewrite ?filter_cons; repeat case_decide;
    try done; try (by constructor); try (by etrans).
Qed.

(** Removing one awaited id from the right-hand side is matched by
    removing every placeholder with that id from the left-hand side. *)
Lemma submseteq_resolve (L : string) (X A1 A2 : list string) :
  X ⊆+ A1 ++ L :: A2 → filter (λ x, x ≠ L) X ⊆+ A1 ++ A2.
Proof.
  intros H. apply (submseteq_filter_mono (λ x, x ≠ L)) in H.
  rewrite filter_app, filter_cons_False in H by (intros ?; done).
  etrans; [exact H|].
  apply submseteq_app; apply sublist_submseteq, sublist_filter.
Qed.

Lemma loadingIds_replace (L : string) (m' : Message.t) (l : list Message.t) :
  Message.id m' = L → ¬ loading m' →
  Message.id <$> filter loading
    ((λ msg, if decide (Message.id msg = L) then m' else msg) <$> l)
  = filter (λ x, x ≠ L) (Message.id <$> filter loading l).
Proof.
  intros Hid Hl. induction l as [|m l IH]; [done|].
  rewrite fmap_cons. destruct (decide (Message.id m = L)) as [Hm|Hm].
  - rewrite filter_cons_False, IH by done.
    rewrite (filter_cons loading). case_decide; [|done].
    rewrite fmap_cons, filter_cons_False; [done|]. intros ?. done.
  - rewrite !(filter_cons loading). case_decide; [|done].
    rewrite !fmap_cons, filter_cons_True by done. by rewrite IH.
Qed.

Lemma awaitedIds_Send w a text lang k c :
  awaitedIds c (step w (Send a text lang k)) =
  awaitedIds c w ++
    (if decide (c = targetChat a k) then [Js.toString (now_loading k + 1)] else []).
Proof.
  unfold awaitedIds, suspendedOn. simpl.
  rewrite fmap_app, filter_app, fmap_app. f_equal.
  simpl. rewrite begin_pending, filter_cons. simpl.
  repeat case_decide; try done; congruence.
Qed.

Lemma loadingIds_Send w a text lang k c :
  loadingIds c (step w (Send a text lang k)) =
  if decide (c = targetChat a k)
  then (if Js.truthy_opt a then loadingIds c w else [])
       ++ [Js.toString (now_loading k + 1)]
  else loadingIds c w.
Proof.
  unfold loadingIds. rewrite messagesOf_Send. case_decide; [|done].
  rewrite filter_app, fmap_app. f_equal. by destruct (Js.truthy_opt a).
Qed.

Lemma awaited_start : awaited start.
Proof. split; [done|]. constructor. Qed.

Lemma awaited_step w e : awaited w → awaited (step w e).
Proof.
  intros [Hsub Htruthy]. destruct e as [now date|id|a text lang k|ticket outcome k].
  - split; [|done]. intros c. unfold loadingIds.
    rewrite messagesOf_NewChat. case_decide.
    + apply submseteq_nil_l.
    + apply Hsub.
  - split; [|done]. apply Hsub.
  - split.
    + intros c. rewrite awaitedIds_Send, loadingIds_Send. case_decide.
      * apply submseteq_app; [|done].
        destruct (Js.truthy_opt a); [apply Hsub|apply submseteq_nil_l].
      * rewrite app_nil_r. apply Hsub.
    + simpl. apply Forall_app. split; [done|].
      constructor; [|constructor]. simpl. rewrite begin_pending. simpl.
      apply targetChat_truthy.
  - destruct (take ticket (suspended w)) as [[p rest]|] eqn:Ht;
      [|by rewrite step_Settle_None].
    destruct (take_Some _ _ _ _ Ht) as (l1 & l2 & Hl & -> & _).
    rewrite Hl in Htruthy.
    apply Forall_app in Htruthy as [H1 [Hp H2]%Forall_cons].
    split; [|simpl; rewrite Ht; simpl; apply Forall_app; done].
    intros c. specialize (Hsub c).
    unfold loadingIds. rewrite (messagesOf_Settle _ _ _ _ _ _ _ Ht).
    unfold awaitedIds, suspendedOn in *. simpl. rewrite Ht. simpl.
    rewrite Hl in Hsub.
    rewrite !fmap_app, !filter_app, !fmap_app in *.
    rewrite fmap_cons, filter_cons in Hsub. simpl in *.
    destruct (decide (chatId p = c)) as [Hc|Hc].
    + rewrite decide_True by done. rewrite fmap_cons in Hsub.
      rewrite loadingIds_replace by auto using resolved_id, resolved_not_loading.
      by apply submseteq_resolve.
    + rewrite decide_False by tauto. done.
Qed.

Lemma awaited_exec w es : awaited w → awaited (exec w es).
Proof.
  revert w. induction es as [|e es IH]; intros w Hw; [done|].
  apply IH, awaited_step, Hw.
Qed.

(** C4, as the code has it.  In every state reached from the start, a
    chat shows at most as many loading placeholders as there are sends on
    this chat whose backend call has not been resolved: none when no send
    is suspended, at most one when sends are issued one at a time. *)
Theorem placeholders_bounded_by_suspended_sends (es : list Event) (c : string) :
  let w := exec start es in
  (length (filter loading (messagesOf c w)) ≤ length (suspendedOn c w))%nat.
Proof.
  intros w. destruct (awaited_exec start es awaited_start) as [Hsub _].
  specialize (Hsub c). apply submseteq_length in Hsub.
  unfold loadingIds, awaitedIds in Hsub. by rewrite !length_fmap in Hsub.
Qed.

(** C4 as stated fails.  "a" is sent with no active chat at time 1000 and
    "b" is sent in the chat so created at time 2000, before the first
    backend call is resolved: the chat then shows two placeholders. *)
Lemma two_placeholders_in_one_chat :
  let clock t := {| now_chat := t; date_chat := t; now_user := t;
                    date_user := t; date_summary := t;
                    now_loading := t; date_loading := t |} in
  let w1 := step start (Send (activeChatId (ui start)) "a" "auto" (clock 1000)) in
  let w2 := step w1 (Send (activeChatId (ui w1)) "b" "auto" (clock 2000)) in
  activeChatId (ui w1) = Some "1000" ∧
  filter loading (messagesOf "1000" w2) =
    [loadingMessage "1001" 1000; loadingMessage "2001" 2000] ∧
  length (suspendedOn "1000" w2) = 2%nat.
Proof. by vm_compute. Qed.

End placeholders.

(** ** Sends that start without an active chat *)

Section one_chat.
Import App Session.
Implicit Types (w : World) (c : string) (e : Event).

Lemma updateChatSummary_ids c text date (l : list Chat.t) :
  Chat.id <$> updateChatSummary c text date l = Chat.id <$> l.
Proof.
  unfold updateChatSummary. rewrite <-list_fmap_compose.
  apply list_fmap_ext. intros i chat _. simpl. by repeat case_decide.
Qed.

Lemma updateLastMessage_ids c reply date (l : list Chat.t) :
  Chat.id <$> updateLastMessage c reply date l = Chat.id <$> l.
Proof.
  unfold updateLastMessage. rewrite <-list_fmap_compose.
  apply list_fmap_ext. intros i chat _. simpl. by case_decide.
Qed.

Lemma resume_chat_ids p outcome k s :
  Chat.id <$> chats (handleSendMessage_resume p outcome k s) = Chat.id <$> chats s.
Proof.
  unfold handleSendMessage_resume.
  destruct outcome as [error|response]; destruct (Js.truthy (chatId p)); simpl;
    by rewrite ?updateLastMessage_ids.
Qed.

Lemma resume_activeChatId p outcome k s :
  activeChatId (handleSendMessage_resume p outcome k s) = activeChatId s.
Proof.
  unfold handleSendMessage_resume.
  by destruct outcome as [error|response]; destruct (Js.truthy (chatId p)).
Qed.

Lemma step_Settle_chat_ids w ticket outcome k :
  Chat.id <$> chats (ui (step w (Settle ticket outcome k))) = Chat.id <$> chats (ui w).
Proof.
  simpl. destruct (take ticket (suspended w)) as [[p rest]|]; [|done].
  apply resume_chat_ids.
Qed.

Lemma step_Settle_activeChatId w ticket outcome k :
  activeChatId (ui (step w (Settle ticket outcome k))) = activeChatId (ui w).
Proof.
  simpl. destruct (take ticket (suspended w)) as [[p rest]|]; [|done].
  apply resume_activeChatId.
Qed.









End one_chat.

(** ** Completed sends in a session with fresh ids *)

Section completed.
Import App Session.
Implicit Types (w : World) (c : string) (e : Event) (l : list Message.t).

Lemma exec_app w es1 es2 : exec w (es1 ++ es2) = exec (exec w es1) es2.
Proof. apply foldl_app. Qed.

Lemma freshTrace_app es1 : ∀ w es2,
  freshTrace w (es1 ++ es2) ↔ freshTrace w es1 ∧ freshTrace (exec w es1) es2.
Proof.
  induction es1 as [|e es1 IH]; intros w es2; simpl; [tauto|].
  rewrite IH. tauto.
Qed.

Lemma targetChat_creating a k :
  Js.truthy_opt a = false → targetChat a k = Js.toString (now_chat k).
Proof.
  unfold targetChat. destruct a as [x|]; [|done]. simpl. by intros ->.
Qed.

Lemma messagesOf_no_key w c : messages (ui w) !! c = None → messagesOf c w = [].
Proof. unfold messagesOf, sequenceOf. by intros ->. Qed.

Lemma withId_app id l1 l2 : withId id (l1 ++ l2) = withId id l1 ++ withId id l2.
Proof. apply filter_app. Qed.

Lemma withId_cons_eq id m l : Message.id m = id → withId id (m :: l) = m :: withId id l.
Proof. intros H. unfold withId. by rewrite filter_cons_True. Qed.

Lemma withId_cons_ne id m l : Message.id m ≠ id → withId id (m :: l) = withId id l.
Proof. intros H. unfold withId. by rewrite filter_cons_False. Qed.

Lemma withId_absent id l : (id ∉ Message.id <$> l) → withId id l = [].
Proof.
  intros Hid. unfold withId. induction l as [|m l IH]; [done|].
  rewrite fmap_cons, not_elem_of_cons in Hid. destruct Hid as [Hm Hl].
  rewrite filter_cons_False by congruence. by apply IH.
Qed.

Lemma withId_present id l m : withId id l = [m] → id ∈ Message.id <$> l.
Proof.
  intros H. assert (m ∈ withId id l) as Hm by (rewrite H; apply list_elem_of_here).
  apply list_elem_of_filter in Hm as [<- Hm]. by apply list_elem_of_fmap_2.
Qed.

Lemma withId_replace_other id L m' l :
  Message.id m' = L → id ≠ L →
  withId id ((λ msg, if decide (Message.id msg = L) then m' else msg) <$> l)
  = withId id l.
Proof.
  intros Hm Hne. unfold withId. induction l as [|m l IH]; [done|].
  rewrite fmap_cons, !filter_cons, IH.
  destruct (decide (Message.id m = L)) as [Hl|Hl].
  - rewrite !decide_False by congruence. done.
  - done.
Qed.

Lemma withId_replace_same L m' l :
  Message.id m' = L →
  withId L ((λ msg, if decide (Message.id msg = L) then m' else msg) <$> l)
  = (λ _, m') <$> withId L l.
Proof.
  intros Hm. unfold withId. induction l as [|m l IH]; [done|].
  rewrite fmap_cons, !filter_cons, IH.
  destruct (decide (Message.id m = L)) as [Hl|Hl].
  - rewrite decide_True by done. done.
  - rewrite decide_False by done. done.
Qed.

Lemma wellTicketed_start : wellTicketed start.
Proof. split; [constructor|]. intros t p H. by apply elem_of_nil in H. Qed.

Lemma wellTicketed_step w e : wellTicketed w → fresh w e → wellTicketed (step w e).
Proof.
  intros [Hbelow Hpresent] Hfresh.
  destruct e as [now date|id|a text lang k|ticket outcome k].
  - split; [done|]. intros t p Hin. specialize (Hpresent t p Hin).
    rewrite messagesOf_NewChat. case_decide as Hc; [|done].
    simpl in Hfresh. rewrite Hc in Hfresh.
    rewrite (messagesOf_no_key _ _ Hfresh) in Hpresent.
    by apply elem_of_nil in Hpresent.
  - done.
  - destruct Hfresh as (_ & Hchat & _ & _). split.
    + simpl. apply Forall_app. split.
      * eapply Forall_impl; [exact Hbelow|]. simpl. lia.
      * constructor; [simpl; lia|constructor].
    + intros t p Hin. simpl in Hin. apply elem_of_app in Hin as [Hin|Hin].
      * specialize (Hpresent t p Hin). rewrite messagesOf_Send.
        case_decide as Hc; [|done].
        destruct (Js.truthy_opt a) eqn:Ha.
        { rewrite fmap_app. apply elem_of_app. by left. }
        rewrite Hc, targetChat_creating in Hpresent by done.
        rewrite (messagesOf_no_key _ _ (Hchat eq_refl)) in Hpresent.
        by apply elem_of_nil in Hpresent.
      * apply list_elem_of_singleton in Hin as [= -> ->].
        rewrite begin_pending. cbn [chatId loadingMessageId].
        rewrite messagesOf_Send, decide_True by done.
        rewrite fmap_app. apply elem_of_app. right. simpl.
        apply list_elem_of_further, list_elem_of_here.
  - destruct (take ticket (suspended w)) as [[q rest]|] eqn:Ht;
      [|by rewrite step_Settle_None].
    destruct (take_Some _ _ _ _ Ht) as (l1 & l2 & Hl & -> & _).
    assert (∀ tp, tp ∈ l1 ++ l2 → tp ∈ suspended w) as Hsub.
    { intros tp. rewrite Hl, !elem_of_app, elem_of_cons. tauto. }
    split.
    + simpl. rewrite Ht. simpl. apply Forall_forall. intros tp Htp.
      rewrite Forall_forall in Hbelow. by apply Hbelow, Hsub.
    + intros t p Hin. rewrite messagesOf_Settle_ids. apply (Hpresent t).
      apply Hsub. simpl in Hin. by rewrite Ht in Hin.
Qed.

Lemma wellTicketed_exec es : ∀ w,
  wellTicketed w → freshTrace w es → wellTicketed (exec w es).
Proof.
  induction es as [|e es IH]; intros w Hw Hf; [done|].
  destruct Hf as [He Hf]. apply IH; [|done]. by apply wellTicketed_step.
Qed.

Lemma filter_ticket_below (n : nat) (l : list (nat * Pending)) :
  Forall (λ tp, (tp.1 < n)%nat) l → filter (λ tp, tp.1 = n) l = [].
Proof.
  induction 1 as [|tp l Htp _ IH]; [done|].
  rewrite filter_cons_False by lia. done.
Qed.

Lemma take_filter ticket (l : list (nat * Pending)) q rest :
  take ticket l = Some (q, rest) →
  filter (λ tp, tp.1 = ticket) l = (ticket, q) :: filter (λ tp, tp.1 = ticket) rest.
Proof.
  intros (l1 & l2 & -> & -> & Hl1)%take_Some.
  rewrite !filter_app, filter_cons_True by done.
  assert (filter (λ tp : nat * Pending, tp.1 = ticket) l1 = []) as ->; [|done].
  induction l1 as [|tp l1 IH]; [done|].
  rewrite fmap_cons, not_elem_of_cons in Hl1. destruct Hl1 as [H1 H2].
  rewrite filter_cons_False by congruence. by apply IH.
Qed.

Lemma tracked_key t p U X present w :
  tracked t p U X present w → messages (ui w) !! chatId p ≠ None.
Proof.
  intros (_ & _ & HU & _) Hnone.
  by rewrite (messagesOf_no_key _ _ Hnone) in HU.
Qed.

(** A send with fresh ids is tracked from the moment it is suspended. *)
Lemma tracked_Send w a text lang k :
  wellTicketed w → fresh w (Send a text lang k) →
  tracked (next w) (handleSendMessage_begin a text lang k (ui w)).2
    (userMessage (now_user k) text (date_user k))
    (loadingMessage (Js.toString (now_loading k + 1)) (date_loading k))
    true (step w (Send a text lang k)).
Proof.
  intros [Hbelow Hpresent] (Hclock & Hchat & HU & HP).
  rewrite begin_pending. unfold tracked. cbn [chatId loadingMessageId].
  set (c := targetChat a k) in *.
  set (U := userMessage (now_user k) text (date_user k)).
  set (P := loadingMessage (Js.toString (now_loading k + 1)) (date_loading k)).
  assert (Message.id U ≠ Message.id P) as Hne.
  { simpl. intros E%toString_inj. lia. }
  assert ((Message.id U ∉ Message.id <$>
             (if Js.truthy_opt a then messagesOf c w else [])) ∧
          (Message.id P ∉ Message.id <$>
             (if Js.truthy_opt a then messagesOf c w else []))) as [HU' HP'].
  { destruct (Js.truthy_opt a); [done|]. split; apply not_elem_of_nil. }
  split; [simpl; lia|]. split; [|split; [|split]].
  - simpl. rewrite filter_app, (filter_ticket_below _ _ Hbelow).
    rewrite filter_cons_True by done. by rewrite begin_pending.
  - rewrite messagesOf_Send, decide_True by done.
    rewrite withId_app, (withId_absent _ _ HU'). simpl.
    rewrite withId_cons_eq, withId_cons_ne by (by auto). done.
  - rewrite messagesOf_Send, decide_True by done.
    rewrite withId_app, (withId_absent _ _ HP'). simpl.
    rewrite withId_cons_ne, withId_cons_eq by (by auto). done.
  - intros t' p' Hin Ht' Hc'. simpl in Hin.
    apply elem_of_app in Hin as [Hin|Hin];
      [|apply list_elem_of_singleton in Hin as [= -> ->]; done].
    specialize (Hpresent t' p' Hin). rewrite Hc' in Hpresent.
    destruct (Js.truthy_opt a) eqn:Ha.
    + split; intros E; rewrite E in Hpresent; done.
    + subst c. rewrite targetChat_creating in Hpresent by done.
      rewrite (messagesOf_no_key _ _ (Hchat eq_refl)) in Hpresent.
      by apply elem_of_nil in Hpresent.
Qed.

(** Other events with fresh ids leave a tracked send as it is. *)
Lemma tracked_step t p U X present w e :
  tracked t p U X present w → fresh w e →
  (present = true → ¬ settles t e) →
  tracked t p U X present (step w e).
Proof.
  intros Htr Hfresh Hnot.
  pose proof (tracked_key _ _ _ _ _ _ Htr) as Hkey.
  destruct Htr as (Hnext & Hticket & HU & HX & Hothers).
  pose proof (withId_present _ _ _ HU) as HUin.
  pose proof (withId_present _ _ _ HX) as HXin.
  destruct e as [now date|id|a text lang k|ticket outcome k].
  - assert (Js.toString now ≠ chatId p) as Hc.
    { intros E. simpl in Hfresh. by rewrite E in Hfresh. }
    unfold tracked. rewrite messagesOf_NewChat, decide_False by done. done.
  - done.
  - destruct Hfresh as (Hclock & Hchat & HU' & HP').
    assert (chatId p = targetChat a k → Js.truthy_opt a = true) as Hexisting.
    { intros E. destruct (Js.truthy_opt a) eqn:Ha; [done|].
      rewrite targetChat_creating in E by done. rewrite E in Hkey.
      by destruct (Hkey (Hchat eq_refl)). }
    unfold tracked. split; [simpl; lia|]. split; [|split; [|split]].
    + simpl. rewrite filter_app, Hticket, filter_cons_False by (simpl; lia).
      by rewrite app_nil_r.
    + rewrite messagesOf_Send. case_decide as Hc; [|done].
      rewrite (Hexisting Hc), withId_app, HU. rewrite <-Hc in HU', HP'.
      simpl. rewrite !withId_cons_ne; [done|..]; simpl;
        intros E; rewrite E in *; done.
    + rewrite messagesOf_Send. case_decide as Hc; [|done].
      rewrite (Hexisting Hc), withId_app, HX. rewrite <-Hc in HU', HP'.
      simpl. rewrite !withId_cons_ne; [done|..]; simpl;
        intros E; rewrite E in *; done.
    + intros t' p' Hin Ht' Hc'. simpl in Hin.
      apply elem_of_app in Hin as [Hin|Hin]; [by eapply Hothers|].
      apply list_elem_of_singleton in Hin as [= -> ->].
      rewrite begin_pending in *. cbn [chatId loadingMessageId] in *.
      rewrite Hc' in HP'. split; intros E; rewrite E in HP'; done.
  - destruct (take ticket (suspended w)) as [[q rest]|] eqn:Ht;
      [|by rewrite step_Settle_None].
    pose proof (take_filter _ _ _ _ Ht) as Hfilter.
    destruct (take_Some _ _ _ _ Ht) as (l1 & l2 & Hl & -> & _).
    assert ((ticket, q) ∈ suspended w) as Hq.
    { rewrite Hl, elem_of_app, elem_of_cons. auto. }
    assert (ticket ≠ t) as Hne.
    { intros ->. destruct present.
      - by apply Hnot.
      - rewrite Hticket in Hfilter. done. }
    assert (∀ tp, tp ∈ l1 ++ l2 → tp ∈ suspended w) as Hsub.
    { intros tp. rewrite Hl, !elem_of_app, elem_of_cons. tauto. }
    unfold tracked. rewrite (messagesOf_Settle _ _ _ _ _ _ _ Ht).
    simpl. rewrite Ht. simpl.
    split; [done|]. split; [|split; [|split]].
    + rewrite <-Hticket, Hl, !filter_app, filter_cons_False by done. done.
    + case_decide as Hc; [|done]. destruct Hc as [Hc _].
      rewrite withId_replace_other; auto using resolved_id.
      intros E. by destruct (Hothers ticket q Hq Hne Hc).
    + case_decide as Hc; [|done]. destruct Hc as [Hc _].
      rewrite withId_replace_other; auto using resolved_id.
      intros E. by destruct (Hothers ticket q Hq Hne Hc).
    + intros t' p' Hin. apply Hothers, Hsub, Hin.
Qed.

Lemma tracked_exec es : ∀ t p U X present w,
  tracked t p U X present w → freshTrace w es →
  (present = true → Forall (λ e, ¬ settles t e) es) →
  tracked t p U X present (exec w es).
Proof.
  induction es as [|e es IH]; intros t p U X present w Htr Hf Hnot; [done|].
  destruct Hf as [He Hf]. apply IH; [|done|].
  - apply tracked_step; [done..|].
    intros Hp. specialize (Hnot Hp). by apply Forall_cons in Hnot as [? _].
  - intros Hp. specialize (Hnot Hp). by apply Forall_cons in Hnot as [_ ?].
Qed.

(** Resuming a tracked send puts the resolved message in the place of
    its placeholder. *)
Lemma tracked_Settle t p U P w outcome k :
  tracked t p U P true w →
  Js.truthy (chatId p) = true →
  Message.id P = loadingMessageId p →
  Message.id U ≠ Message.id P →
  tracked t p U (resolved (loadingMessageId p) outcome k) false
    (step w (Settle t outcome k)).
Proof.
  intros (Hnext & Hticket & HU & HX & Hothers) Htruthy HP Hne.
  destruct (take t (suspended w)) as [[q rest]|] eqn:Ht.
  2:{ apply take_None in Ht.
      assert ((t, p) ∈ filter (λ tp : nat * Pending, tp.1 = t) (suspended w))
        as Hin by (rewrite Hticket; apply list_elem_of_here).
      apply list_elem_of_filter in Hin as [_ Hin].
      destruct Ht. by apply (list_elem_of_fmap_2 fst) in Hin. }
  pose proof (take_filter _ _ _ _ Ht) as Hfilter.
  rewrite Hticket in Hfilter. injection Hfilter as <- Hrest.
  destruct (take_Some _ _ _ _ Ht) as (l1 & l2 & Hl & -> & _).
  unfold tracked. rewrite (messagesOf_Settle _ _ _ _ _ _ _ Ht).
  rewrite decide_True by done. simpl. rewrite Ht. simpl.
  split; [done|]. split; [done|]. split; [|split].
  - rewrite withId_replace_other; auto using resolved_id. congruence.
  - rewrite resolved_id, withId_replace_same by apply resolved_id.
    rewrite <-HP, HX. done.
  - intros t' p' Hin. rewrite resolved_id, <-HP. apply Hothers.
    rewrite Hl, elem_of_app, elem_of_cons.
    apply elem_of_app in Hin. tauto.
Qed.

(** X22.  Ids are milliseconds on the clock, so the code does not make
    them fresh; this is what holds when they are.  In a session whose
    events all generate fresh ids, take any send and let its backend call
    be resolved or rejected later on, other events coming before, in
    between and after.  From then on the sequence of its chat holds
    exactly one message with the id of its user message, which is that
    user message, and exactly one message with the id of its placeholder,
    which is the bot message that took the placeholder's place: the
    placeholder is neither duplicated nor left behind. *)
Theorem completed_send_contributes_once (pre mid post : list Event)
    (a : option string) (text lang : string) (k : SendClock)
    (outcome : Js.Thrown + Api.ChatResponse) (kr : ResumeClock) :
  let ticket := next (exec start pre) in
  let trace := pre ++ Send a text lang k :: mid ++ Settle ticket outcome kr :: post in
  freshTrace start trace →
  Forall (λ e, ¬ settles ticket e) mid →
  let c := targetChat a k in
  let U := userMessage (now_user k) text (date_user k) in
  let L := Js.toString (now_loading k + 1) in
  let B := resolved L outcome kr in
  let w := exec start trace in
  withId (Message.id U) (messagesOf c w) = [U] ∧
  withId L (messagesOf c w) = [B] ∧
  Message.sender U = user ∧
  Message.sender B = bot ∧
  Message.id B = L ∧
  Message.isLoading B = None ∧
  Message.id U ≠ L.
Proof.
  intros ticket trace Hfresh Hmid c U L B w.
  apply freshTrace_app in Hfresh as [Hpre [Hsend Hrest]].
  apply freshTrace_app in Hrest as [Hfmid [_ Hpost]].
  set (w0 := exec start pre) in *.
  set (w1 := step w0 (Send a text lang k)) in *.
  set (w2 := exec w1 mid) in *.
  set (w3 := step w2 (Settle ticket outcome kr)) in *.
  assert (w = exec w3 post) as ->.
  { subst w trace. rewrite exec_app. simpl. by rewrite exec_app. }
  assert (Message.id U ≠ L) as Hne.
  { destruct Hsend as [Hclock _]. subst U L. simpl.
    intros E%toString_inj. lia. }
  pose proof (wellTicketed_exec pre start wellTicketed_start Hpre) as Hw0.
  pose proof (tracked_Send w0 a text lang k Hw0 Hsend) as Htr.
  pose proof (begin_pending a text lang k (ui w0)) as Hp.
  set (p := (handleSendMessage_begin a text lang k (ui w0)).2) in *.
  assert (chatId p = c ∧ loadingMessageId p = L) as [Hc HL] by (by rewrite Hp).
  apply (tracked_exec mid) in Htr; [|done..].
  apply (tracked_Settle _ _ _ _ _ outcome kr) in Htr;
    [|rewrite Hc; apply targetChat_truthy|by rewrite HL|done].
  apply (tracked_exec post) in Htr; [|done..].
  destruct Htr as (_ & _ & HU & HB & _).
  rewrite Hc, HL in *. rewrite resolved_id in HB.
  split; [done|]. split; [done|]. split; [done|].
  split; [by destruct outcome|]. split; [apply resolved_id|].
  split; [by destruct outcome|done].
Qed.

Lemma completed_send_contributes_once_witness :
  let clock t := {| now_chat := t; date_chat := t; now_user := t;
                    date_user := t; date_summary := t;
                    now_loading := t; date_loading := t |} in
  let reply := inr {| Api.reply := "Drink fluids and rest."; Api.lang := "en" |} in
  let kr := {| date_reply := 3000; date_last := 3000 |} in
  let trace := [ Send None "I have a fever" "en" (clock 1000);
                 Send (Some "1000") "and a cough" "en" (clock 2000);
                 Settle 0 reply kr ] in
  withId "1000" (messagesOf "1000" (exec start trace)) =
    [userMessage 1000 "I have a fever" 1000] ∧
  withId "1001" (messagesOf "1000" (exec start trace)) =
    [resolved "1001" reply kr].
Proof.
  intros clock reply kr trace.
  destruct (completed_send_contributes_once []
              [Send (Some "1000") "and a cough" "en" (clock 2000)] []
              None "I have a fever" "en" (clock 1000) reply kr)
    as (HU & HB & _).
  - vm_compute. repeat split; try done; absent_from_list.
  - repeat constructor. simpl. by intros [].
  - split; [exact HU|exact HB].
Defined.

(** C1.  The code breaks the claim when ids collide.  The id of a
    placeholder is the time plus one, meant to differ from the id of the
    user message, and the reply is to replace the loading message; but the
    time plus one is the id of a user message sent one millisecond later.
    "a" is sent at time 1000 with no active chat and "b" is sent at time
    1001 in the chat so created, before the first backend call is
    resolved: the user message of the second send has the id of the first
    placeholder.  When the first reply arrives it takes the place of
    both, so that after both sends have completed the chat holds one user
    message and three bot messages, and the first reply twice. *)
Lemma colliding_ids_lose_user_message :
  let clock t := {| now_chat := t; date_chat := t; now_user := t;
                    date_user := t; date_summary := t;
                    now_loading := t; date_loading := t |} in
  let kr t := {| date_reply := t; date_last := t |} in
  let r1 := {| Api.reply := "first reply"; Api.lang := "en" |} in
  let r2 := {| Api.reply := "second reply"; Api.lang := "en" |} in
  let w1 := step start (Send (activeChatId (ui start)) "a" "auto" (clock 1000)) in
  let w2 := step w1 (Send (activeChatId (ui w1)) "b" "auto" (clock 1001)) in
  let w := exec w2 [Settle 0 (inr r1) (kr 3000); Settle 1 (inr r2) (kr 4000)] in
  activeChatId (ui w1) = Some "1000" ∧
  suspended w = [] ∧
  messagesOf "1000" w =
    [ userMessage 1000 "a" 1000;
      replyMessage "1001" r1 3000;
      replyMessage "1001" r1 3000;
      replyMessage "1002" r2 4000 ] ∧
  (userMessage 1001 "b" 1001 ∉ messagesOf "1000" w) ∧
  withId "1001" (messagesOf "1000" w) ≠ [replyMessage "1001" r1 3000].
Proof.
  vm_compute. repeat split; try done; absent_from_list.
Qed.

End completed.

(** * Further properties of the sources *)

(** ** Strings, continued *)

Lemma string_app_nil_r (s : string) : s +:+ "" = s.
Proof.
  induction s as [|a s IH]; [done|].
  change (String a (s +:+ "") = String a s). by rewrite IH.
Qed.

Lemma string_app_assoc (s1 s2 s3 : string) :
  (s1 +:+ s2) +:+ s3 = s1 +:+ (s2 +:+ s3).
Proof.
  induction s1 as [|a s1 IH]; [done|].
  change (String a ((s1 +:+ s2) +:+ s3) = String a (s1 +:+ (s2 +:+ s3))).
  by rewrite IH.
Qed.

Lemma string_app_length (s1 s2 : string) :
  String.length (s1 +:+ s2) = (String.length s1 + String.length s2)%nat.
Proof.
  induction s1 as [|a s1 IH]; [done|].
  change (S (String.length (s1 +:+ s2)) = S (String.length s1 + String.length s2)).
  by rewrite IH.
Qed.

Lemma slice0_all (n : nat) (s : string) :
  (String.length s ≤ n)%nat → Js.slice0 n s = s.
Proof.
  revert s. induction n as [|n IH]; intros [|a s] H; simpl in *; try done; try lia.
  rewrite IH; [done|lia].
Qed.

Lemma slice0_length_le (n : nat) (s : string) :
  (String.length (Js.slice0 n s) ≤ n)%nat.
Proof.
  revert s. induction n as [|n IH]; intros [|a s]; simpl; try lia.
  specialize (IH s). lia.
Qed.

(** ** Titles *)

(** X1.  The title that the summary update gives to a chat that still has
    the default title is the text itself when the text has at most 30
    characters, is never longer than 33 characters, and is again the
    default title only when the text is "New Chat". *)
Theorem updateChatSummary_short_text (prevChats : list Chat.t) (i : nat)
    (chat : Chat.t) (text : string) (date : Z) :
  prevChats !! i = Some chat →
  Chat.title chat = "New Chat" →
  ∃ chat',
    App.updateChatSummary (Chat.id chat) text date prevChats !! i = Some chat' ∧
    (String.length (Chat.title chat') ≤ 33)%nat ∧
    ((String.length text ≤ 30)%nat → Chat.title chat' = text) ∧
    (Chat.title chat' = "New Chat" ↔ text = "New Chat").
Proof.
  intros Hi Ht. unfold App.updateChatSummary.
  rewrite list_lookup_fmap, Hi. cbn -[Js.slice0]. rewrite decide_True by done.
  eexists. split; [done|]. cbn -[Js.slice0].
  pose proof (slice0_length_le 30 text) as Hle.
  case_decide as Hlen.
  - assert (String.length (Js.slice0 30 text +:+ "...") = 33%nat) as Hlen33.
    { rewrite string_app_length, slice0_length by lia. done. }
    split; [lia|]. split; [lia|]. split.
    + intros E. by rewrite E in Hlen33.
    + intros ->. by vm_compute in Hlen.
  - rewrite string_app_nil_r, slice0_all by lia.
    split; [lia|]. done.
Qed.

Lemma updateChatSummary_short_text_witness :
  ∃ chat',
    App.updateChatSummary "7" "Hello" 9
      [ {| Chat.id := "7"; Chat.title := "New Chat";
           Chat.lastMessage := ""; Chat.timestamp := 1 |} ] !! 0%nat = Some chat' ∧
    (String.length (Chat.title chat') ≤ 33)%nat ∧
    ((String.length "Hello" ≤ 30)%nat → Chat.title chat' = "Hello") ∧
    (Chat.title chat' = "New Chat" ↔ "Hello" = "New Chat").
Proof.
  exact (updateChatSummary_short_text
           [ {| Chat.id := "7"; Chat.title := "New Chat";
                Chat.lastMessage := ""; Chat.timestamp := 1 |} ] 0
           {| Chat.id := "7"; Chat.title := "New Chat";
              Chat.lastMessage := ""; Chat.timestamp := 1 |}
           "Hello" 9 eq_refl eq_refl).
Defined.

(** ** New chat, then a message *)

(** X2.  After "new chat" a message sent through the handler of the new
    render goes to the chat just created: no second chat is made, the chat
    stays active and at the front with its summary taken from the text, and
    its sequence is the user message followed by the placeholder. *)
Theorem send_after_new_chat (s : App.State) (now date : Z)
    (text lang : string) (k : App.SendClock) :
  let s1 := App.handleNewChat now date s in
  let r := App.handleSendMessage_begin (App.activeChatId s1) text lang k s1 in
  let c := Js.toString now in
  App.chatId r.2 = c ∧
  App.activeChatId r.1 = Some c ∧
  App.chats r.1 =
    {| Chat.id := c;
       Chat.title := Js.slice0 30 text +:+
                     (if decide (30 < String.length text)%nat then "..." else "");
       Chat.lastMessage := text; Chat.timestamp := App.date_summary k |}
    :: App.updateChatSummary c text (App.date_summary k) (App.chats s) ∧
  App.sequenceOf c (App.messages r.1) =
    [App.userMessage (App.now_user k) text (App.date_user k);
     App.loadingMessage (Js.toString (App.now_loading k + 1)) (App.date_loading k)].
Proof.
  intros s1 r c.
  assert (App.activeChatId s1 = Some c) as Ha by done.
  assert (Js.truthy c = true) as Hc by apply toString_truthy.
  assert (App.targetChat (Some c) k = c) as Htarget.
  { unfold App.targetChat. by rewrite Hc. }
  subst r. rewrite Ha.
  split; [by rewrite begin_pending|].
  split; [rewrite begin_activeChatId; simpl; by rewrite Hc|].
  split.
  - rewrite begin_chats, Htarget. simpl. rewrite Hc.
    unfold App.updateChatSummary at 1. cbn -[Js.slice0].
    by rewrite decide_True.
  - rewrite <-Htarget at 1. rewrite begin_sequence, Htarget.
    cbn [Js.truthy_opt]. rewrite Hc. subst s1.
    unfold App.handleNewChat. cbn [App.messages App.setMessages].
    by rewrite sequenceOf_insert, decide_True.
Qed.

(** ** A successful reply *)

Lemma updateLastMessage_titles c reply date (l : list Chat.t) :
  Chat.title <$> App.updateLastMessage c reply date l = Chat.title <$> l.
Proof.
  unfold App.updateLastMessage. rewrite <-list_fmap_compose.
  apply list_fmap_ext. intros i chat _. simpl. by case_decide.
Qed.

(** X3.  When the backend call of a send succeeds, the resumed invocation
    replaces every message of its chat that has the placeholder id by a
    bot message that is not loading and carries the reply and its
    language; it sets [lastMessage] and [timestamp] of the chats with the
    id of its chat and changes no title, no id and no other chat, and it
    switches the loading indicator off. *)
Theorem successful_send_resolves_placeholder (a : option string)
    (text lang : string) (k : App.SendClock) (s0 s : App.State)
    (kr : App.ResumeClock) (response : Api.ChatResponse) :
  let p := (App.handleSendMessage_begin a text lang k s0).2 in
  let s' := App.handleSendMessage_resume p (inr response) kr s in
  let replacement :=
    App.replyMessage (App.loadingMessageId p) response (App.date_reply kr) in
  App.sequenceOf (App.chatId p) (App.messages s') =
    (λ msg, if decide (Message.id msg = App.loadingMessageId p)
            then replacement else msg)
      <$> App.sequenceOf (App.chatId p) (App.messages s) ∧
  Message.text replacement = Api.reply response ∧
  Message.lang replacement = Some (Api.lang response) ∧
  Message.sender replacement = bot ∧
  Message.isLoading replacement = None ∧
  Chat.title <$> App.chats s' = Chat.title <$> App.chats s ∧
  Chat.id <$> App.chats s' = Chat.id <$> App.chats s ∧
  (∀ i chat, App.chats s !! i = Some chat →
     App.chats s' !! i =
       Some (if decide (Chat.id chat = App.chatId p)
             then {| Chat.id := Chat.id chat; Chat.title := Chat.title chat;
                     Chat.lastMessage := Api.reply response;
                     Chat.timestamp := App.date_last kr |}
             else chat)) ∧
  App.loadingChatId s' = None ∧
  App.activeChatId s' = App.activeChatId s.
Proof.
  intros p s' replacement.
  pose proof (begin_pending a text lang k s0) as Hp. fold p in Hp.
  assert (Js.truthy (App.chatId p) = true) as Htruthy.
  { rewrite Hp. apply targetChat_truthy. }
  assert (App.chats s' =
          App.updateLastMessage (App.chatId p) (Api.reply response)
            (App.date_last kr) (App.chats s)) as Hchats.
  { subst s'. unfold App.handleSendMessage_resume. by rewrite Htruthy. }
  split.
  { subst s'. unfold App.handleSendMessage_resume. rewrite Htruthy.
    cbn [App.messages App.setLoadingChatId App.setChats App.setMessages].
    by rewrite sequenceOf_replaceMessage, decide_True. }
  do 4 (split; [done|]).
  split; [by rewrite Hchats, updateLastMessage_titles|].
  split; [by rewrite Hchats, updateLastMessage_ids|].
  split.
  { intros i chat Hi. rewrite Hchats. unfold App.updateLastMessage.
    by rewrite list_lookup_fmap, Hi. }
  split; [done|].
  subst s'. unfold App.handleSendMessage_resume. by rewrite Htruthy.
Qed.

Lemma successful_send_resolves_placeholder_witness :
  let k := {| App.now_chat := 1000; App.date_chat := 1000;
              App.now_user := 1000; App.date_user := 1000;
              App.date_summary := 1000;
              App.now_loading := 1000; App.date_loading := 1000 |} in
  let kr := {| App.date_reply := 1500; App.date_last := 1600 |} in
  let response := {| Api.reply := "Rest and fluids."; Api.lang := "en" |} in
  let r := App.handleSendMessage_begin None "What helps a cold?" "auto" k
             App.initial in
  App.chats (App.handleSendMessage_resume r.2 (inr response) kr r.1) !! 0%nat =
  Some {| Chat.id := "1000"; Chat.title := "What helps a cold?";
          Chat.lastMessage := "Rest and fluids."; Chat.timestamp := 1600 |}.
Proof.
  intros k kr response r.
  destruct (successful_send_resolves_placeholder None "What helps a cold?" "auto"
              k App.initial r.1 kr response)
    as (_ & _ & _ & _ & _ & _ & _ & Hchats & _).
  exact (Hchats 0%nat
           {| Chat.id := "1000"; Chat.title := "What helps a cold?";
              Chat.lastMessage := "What helps a cold?"; Chat.timestamp := 1000 |}
           eq_refl).
Defined.

(** ** What the user sees right after sending *)

(** X4.  A message sent through the handler of the latest render is shown
    at once: the messages handed to the chat area end with the user
    message and the placeholder, whether or not a chat was active. *)
Theorem sent_message_is_shown_at_once (s : App.State) (text lang : string)
    (k : App.SendClock) :
  let r := App.handleSendMessage_begin (App.activeChatId s) text lang k s in
  ∃ before,
    App.messagesProp r.1 =
      before ++
      [App.userMessage (App.now_user k) text (App.date_user k);
       App.loadingMessage (Js.toString (App.now_loading k + 1)) (App.date_loading k)] ∧
    (App.messagesProp s = [] → before = []).
Proof.
  intros r. subst r.
  set (a := App.activeChatId s).
  assert (App.activeChatId
            (App.handleSendMessage_begin a text lang k s).1
          = Some (App.targetChat a k)) as Hact.
  { rewrite begin_activeChatId. unfold App.targetChat. subst a.
    destruct (App.activeChatId s) as [x|] eqn:E; [|done]. simpl.
    by destruct (Js.truthy x). }
  unfold App.messagesProp at 1. rewrite Hact, targetChat_truthy, begin_sequence.
  eexists. split; [done|].
  unfold App.messagesProp. fold a. unfold App.targetChat.
  destruct a as [x|]; [|done]. simpl. by destruct (Js.truthy x).
Qed.

Lemma sent_message_is_shown_at_once_witness :
  let k := {| App.now_chat := 1000; App.date_chat := 1000;
              App.now_user := 1000; App.date_user := 1000;
              App.date_summary := 1000;
              App.now_loading := 1000; App.date_loading := 1000 |} in
  App.messagesProp
    (App.handleSendMessage_begin (App.activeChatId App.initial) "Hello" "auto" k
       App.initial).1
  = [App.userMessage 1000 "Hello" 1000; App.loadingMessage "1001" 1000].
Proof.
  intros k.
  destruct (sent_message_is_shown_at_once App.initial "Hello" "auto" k)
    as (before & Hshown & Hfirst).
  rewrite (Hfirst eq_refl) in Hshown. exact Hshown.
Defined.

(** ** A whole send, from no active chat to the reply *)

(** X5.  With no active chat, a send whose backend call is answered with a
    status in 200-299 and a body that parses, during which nothing else
    happens and in which the clock does not go back (the time read for the
    id of the placeholder is not before the time read for the id of the
    user message), leaves one more chat, at the front and active, whose
    title comes from the text and whose [lastMessage] is the reply; its
    sequence is the user message followed by the reply, and the loading
    indicator is off. *)
Theorem send_without_chat_then_reply (vite : option string)
    (net : nat → Api.Request → Api.FetchResult) (s : App.State)
    (text lang : string) (k : App.SendClock) (kr : App.ResumeClock)
    (resp : Api.Response) (response : Api.ChatResponse) :
  Js.truthy_opt (App.activeChatId s) = false →
  App.now_user k ≤ App.now_loading k →
  net 0%nat (Api.chat_request vite text lang) = Api.Fulfilled resp →
  Api.ok resp = true →
  Api.json resp = inr response →
  let s' := App.handleSendMessage vite net (App.activeChatId s) text lang k kr s in
  let c := Js.toString (App.now_chat k) in
  App.activeChatId s' = Some c ∧
  App.loadingChatId s' = None ∧
  App.sequenceOf c (App.messages s') =
    [App.userMessage (App.now_user k) text (App.date_user k);
     App.replyMessage (Js.toString (App.now_loading k + 1)) response
       (App.date_reply kr)] ∧
  App.chats s' =
    {| Chat.id := c;
       Chat.title := Js.slice0 30 text +:+
                     (if decide (30 < String.length text)%nat then "..." else "");
       Chat.lastMessage := Api.reply response;
       Chat.timestamp := App.date_last kr |}
    :: App.updateLastMessage c (Api.reply response) (App.date_last kr)
         (App.updateChatSummary c text (App.date_summary k) (App.chats s)).
Proof.
  intros Hnone Hclock Hnet Hok Hjson s' c.
  assert (App.targetChat (App.activeChatId s) k = c) as Htarget.
  { unfold App.targetChat. destruct (App.activeChatId s) as [x|]; [|done].
    simpl in Hnone. by rewrite Hnone. }
  assert (Js.truthy c = true) as Hc by apply toString_truthy.
  subst s'. unfold App.handleSendMessage.
  rewrite run_sendMessage. cbn [snd]. rewrite Hnet, Hok, Hjson.
  set (r := App.handleSendMessage_begin (App.activeChatId s) text lang k s).
  pose proof (begin_pending (App.activeChatId s) text lang k s) as Hp.
  fold r in Hp. rewrite Htarget in Hp.
  unfold App.handleSendMessage_resume. rewrite Hp.
  cbn [App.chatId App.loadingMessageId]. rewrite Hc.
  cbn [App.activeChatId App.loadingChatId App.messages App.chats
       App.setLoadingChatId App.setChats App.setMessages].
  split.
  { subst r. rewrite begin_activeChatId, Htarget. by rewrite Hnone. }
  split; [done|]. split.
  - rewrite sequenceOf_replaceMessage, decide_True by done.
    subst r. rewrite <-Htarget at 1. rewrite begin_sequence, Hnone.
    cbn [app fmap list_fmap]. rewrite decide_False, decide_True; [done..|].
    cbn [Message.id App.userMessage]. intros E%toString_inj. lia.
  - subst r. rewrite begin_chats, Htarget, Hnone.
    unfold App.updateChatSummary at 1. rewrite fmap_cons.
    unfold App.updateLastMessage at 1. rewrite fmap_cons. f_equal.
    cbn -[Js.slice0].
    rewrite (decide_True (P := Js.toString (App.now_chat k) = c ∧ _)) by done.
    cbn -[Js.slice0]. by rewrite decide_True.
Qed.

Lemma send_without_chat_then_reply_witness :
  let k := {| App.now_chat := 1000; App.date_chat := 1000;
              App.now_user := 1000; App.date_user := 1000;
              App.date_summary := 1000;
              App.now_loading := 1000; App.date_loading := 1000 |} in
  let kr := {| App.date_reply := 1500; App.date_last := 1500 |} in
  let response := {| Api.reply := "Hi, how can I help?"; Api.lang := "en" |} in
  let net := λ (_ : nat) (_ : Api.Request),
               Api.Fulfilled {| Api.status := 200; Api.json := inr response |} in
  let s' := App.handleSendMessage None net None "Hello" "auto" k kr App.initial in
  App.sequenceOf "1000" (App.messages s') =
    [App.userMessage 1000 "Hello" 1000; App.replyMessage "1001" response 1500] ∧
  App.chats s' =
    [ {| Chat.id := "1000"; Chat.title := "Hello";
         Chat.lastMessage := "Hi, how can I help?"; Chat.timestamp := 1500 |} ].
Proof.
  intros k kr response net s'.
  destruct (send_without_chat_then_reply None net App.initial "Hello" "auto" k kr
              {| Api.status := 200; Api.json := inr response |} response)
    as (_ & _ & Hseq & Hchats).
  - reflexivity.
  - simpl. lia.
  - reflexivity.
  - reflexivity.
  - reflexivity.
  - split; [exact Hseq|exact Hchats].
Defined.

(** ** A whole send that fails *)



(** ** What a session keeps *)

Section session_invariants.
Import App Session.
Implicit Types (w : World) (c : string) (e : Event).

Lemma begin_loadingChatId a text lang k s :
  loadingChatId (handleSendMessage_begin a text lang k s).1 =
  Some (targetChat a k).
Proof.
  unfold handleSendMessage_begin, targetChat.
  destruct a as [x|]; [destruct (Js.truthy x) eqn:E|]; simpl;
    rewrite ?E, ?toString_truthy; done.
Qed.

Lemma resume_loadingChatId p outcome k s :
  loadingChatId (handleSendMessage_resume p outcome k s) = None.
Proof. done. Qed.

Lemma resume_chats p outcome k s :
  chats (handleSendMessage_resume p outcome k s) =
  match outcome with
  | inr response =>
      updateLastMessage (chatId p) (Api.reply response) (date_last k) (chats s)
  | inl _ => chats s
  end.
Proof.
  unfold handleSendMessage_resume.
  by destruct outcome; destruct (Js.truthy (chatId p)).
Qed.

(** *** Chats are kept *)

Lemma keepsChats_refl (l : list Chat.t) : keepsChats l l.
Proof.
  exists [], l. split; [done|]. apply Forall_Forall2_diag, Forall_forall.
  intros ch _. by split.
Qed.

Lemma keepsChats_fmap (f : Chat.t → Chat.t) (added l : list Chat.t) :
  (∀ ch, Chat.id (f ch) = Chat.id ch ∧
         (Chat.title ch ≠ "New Chat" → Chat.title (f ch) = Chat.title ch)) →
  keepsChats l (f <$> (added ++ l)).
Proof.
  intros Hf. exists (f <$> added), (f <$> l). split; [apply fmap_app|].
  apply Forall2_fmap_r, Forall_Forall2_diag, Forall_forall.
  intros ch _. apply Hf.
Qed.

Lemma keepsChats_trans (l1 l2 l3 : list Chat.t) :
  keepsChats l1 l2 → keepsChats l2 l3 → keepsChats l1 l3.
Proof.
  intros (added1 & kept1 & -> & H1) (added2 & kept2 & -> & H2).
  apply Forall2_app_inv_l in H2 as (k2a & k2b & _ & H2 & ->).
  exists (added2 ++ k2a), k2b. split; [by rewrite app_assoc|].
  clear -H1 H2. revert k2b H2.
  induction H1 as [|ch ch' l l' [Hid Ht] _ IH]; intros k2b H2.
  - by inv H2.
  - inv H2 as [|? ch'' ? l'' [Hid' Ht'] H2']. constructor; [|by apply IH].
    split; [congruence|]. intros Hne. rewrite Ht', Ht; [done..|].
    rewrite Ht; done.
Qed.

Lemma updateChatSummary_keeps c text date (added l : list Chat.t) :
  keepsChats l (updateChatSummary c text date (added ++ l)).
Proof.
  unfold updateChatSummary. apply keepsChats_fmap. intros ch.
  destruct (decide (Chat.title ch = "New Chat")) as [Ht|Ht].
  - split; [by repeat case_decide|done].
  - rewrite decide_False by tauto. by case_decide.
Qed.

Lemma updateLastMessage_keeps c reply date (l : list Chat.t) :
  keepsChats l (updateLastMessage c reply date l).
Proof.
  unfold updateLastMessage. apply (keepsChats_fmap _ []).
  intros ch. by case_decide.
Qed.

Lemma keepsChats_step w e : keepsChats (chats (ui w)) (chats (ui (step w e))).
Proof.
  destruct e as [now date|id|a text lang k|ticket outcome k].
  - exists [newChat now date], (chats (ui w)). split; [done|].
    apply Forall_Forall2_diag, Forall_forall. intros ch _. by split.
  - apply keepsChats_refl.
  - cbn [step ui fst]. rewrite begin_chats.
    destruct (Js.truthy_opt a).
    + apply (updateChatSummary_keeps _ _ _ []).
    + apply (updateChatSummary_keeps _ _ _ [newChat (now_chat k) (date_chat k)]).
  - cbn [step]. destruct (take ticket (suspended w)) as [[p rest]|];
      [|apply keepsChats_refl].
    cbn [ui]. rewrite resume_chats. destruct outcome as [error|response];
      [apply keepsChats_refl|apply updateLastMessage_keeps].
Qed.

(** X7.  Whatever happens in a session, the chats of the collection stay:
    in the same order, behind the chats created since, each with its id,
    and each with its title once that is no longer "New Chat". *)
Theorem chats_are_kept (w : World) (es : list Event) :
  ∃ added kept,
    chats (ui (exec w es)) = added ++ kept ∧
    Forall2 (λ ch ch', Chat.id ch' = Chat.id ch ∧
                       (Chat.title ch ≠ "New Chat" → Chat.title ch' = Chat.title ch))
            (chats (ui w)) kept.
Proof.
  change (keepsChats (chats (ui w)) (chats (ui (exec w es)))).
  revert w. induction es as [|e es IH]; intros w; [apply keepsChats_refl|].
  eapply keepsChats_trans; [apply (keepsChats_step w e)|apply IH].
Qed.

(** *** Sequences only grow *)

Lemma message_ids_step w e c :
  ¬ creates c e →
  (Message.id <$> messagesOf c w) `prefix_of` (Message.id <$> messagesOf c (step w e)).
Proof.
  intros Hc. destruct e as [now date|id|a text lang k|ticket outcome k].
  - rewrite messagesOf_NewChat, decide_False; done.
  - done.
  - rewrite messagesOf_Send. case_decide as Ht; [|done].
    destruct (Js.truthy_opt a) eqn:Ha.
    + rewrite fmap_app. by apply prefix_app_r.
    + destruct Hc. split; [done|]. by rewrite Ht, targetChat_creating.
  - by rewrite messagesOf_Settle_ids.
Qed.

(** X8.  As long as no event creates a chat with the id [c] again, no
    message of chat [c] is removed or moved: the ids of its sequence
    before are a prefix of the ids of its sequence after. *)
Theorem message_ids_only_grow (w : World) (es : list Event) (c : string) :
  Forall (λ e, ¬ creates c e) es →
  (Message.id <$> messagesOf c w)
    `prefix_of` (Message.id <$> messagesOf c (exec w es)).
Proof.
  revert w. induction es as [|e es IH]; intros w Hes; [done|].
  apply Forall_cons in Hes as [He Hes].
  etrans; [by apply (message_ids_step w e c)|by apply IH].
Qed.

Lemma message_ids_only_grow_witness :
  let clock t := {| now_chat := t; date_chat := t; now_user := t;
                    date_user := t; date_summary := t;
                    now_loading := t; date_loading := t |} in
  let w := step start (Send None "a" "auto" (clock 1000)) in
  let es := [ Send (Some "1000") "b" "auto" (clock 2000);
              Settle 0 (inl Js.NonError) {| date_reply := 3000; date_last := 3000 |};
              NewChat 4000 4000 ] in
  (Message.id <$> messagesOf "1000" w)
    `prefix_of` (Message.id <$> messagesOf "1000" (exec w es)).
Proof.
  intros clock w es. apply (message_ids_only_grow w es "1000").
  repeat constructor; simpl; try tauto.
  - intros [? _]. done.
  - intros E. by vm_compute in E.
Defined.

End session_invariants.

(** ** Chats, sequences and the active chat agree *)

Section consistency.
Import App Session.
Implicit Types (w : World) (c : string) (e : Event).

Lemma is_Some_appendMessage chatId m (prev : gmap string (list Message.t)) c :
  is_Some (appendMessage chatId m prev !! c) ↔ c = chatId ∨ is_Some (prev !! c).
Proof.
  unfold appendMessage. rewrite lookup_insert. case_decide as Hc.
  - subst. split; [by left|by eexists].
  - split; [by right|]. intros [?|?]; [congruence|done].
Qed.

Lemma is_Some_insert_sequence chatId l (prev : gmap string (list Message.t)) c :
  is_Some (<[chatId := l]> prev !! c) ↔ c = chatId ∨ is_Some (prev !! c).
Proof.
  rewrite lookup_insert. case_decide as Hc.
  - subst. split; [by left|by eexists].
  - split; [by right|]. intros [?|?]; [congruence|done].
Qed.

Lemma resume_keys p outcome k s c :
  is_Some (messages (handleSendMessage_resume p outcome k s) !! c) ↔
  (c = chatId p ∧ Js.truthy (chatId p) = true) ∨ is_Some (messages s !! c).
Proof.
  unfold handleSendMessage_resume.
  destruct outcome; destruct (Js.truthy (chatId p)) eqn:E;
    cbn [messages setLoadingChatId setChats setMessages];
    unfold replaceMessage; rewrite ?is_Some_insert_sequence;
    try tauto; split; try tauto; intros [[_ ?]|?]; done.
Qed.

Lemma consistent_start : consistent start.
Proof.
  split; [|split].
  - intros c. simpl. rewrite lookup_empty. split.
    + by intros [? ?].
    + intros H. by apply elem_of_nil in H.
  - done.
  - intros t p H. by apply elem_of_nil in H.
Qed.

Lemma consistent_step w e : consistent w → fromUI w e → consistent (step w e).
Proof.
  intros (Hkeys & Hact & Hpend) Hui.
  destruct e as [now date|id|a text lang k|ticket outcome k].
  - split; [|split].
    + intros c. cbn [step ui]. unfold handleNewChat.
      cbn [messages chats setMessages setActiveChatId setChats prependChat].
      rewrite is_Some_insert_sequence, Hkeys.
      change (c = Js.toString now ∨ c ∈ Chat.id <$> chats (ui w) ↔
              c ∈ Js.toString now :: (Chat.id <$> chats (ui w))).
      by rewrite elem_of_cons.
    + intros a [= <-]. apply list_elem_of_here.
    + intros t p Hin. simpl. apply list_elem_of_further. by eapply Hpend.
  - split; [done|]. split; [|done]. by intros a [= <-].
  - set (c0 := targetChat a k).
    assert (Chat.id <$> chats (ui (step w (Send a text lang k))) =
            if Js.truthy_opt a then Chat.id <$> chats (ui w)
            else c0 :: (Chat.id <$> chats (ui w))) as Hids.
    { cbn [step ui fst]. rewrite begin_chats, updateChatSummary_ids.
      destruct (Js.truthy_opt a) eqn:Ha; [done|].
      rewrite fmap_cons. subst c0. by rewrite targetChat_creating. }
    assert (c0 ∈ Chat.id <$> chats (ui (step w (Send a text lang k)))) as Hc0.
    { rewrite Hids. destruct (Js.truthy_opt a) eqn:Ha; [|apply list_elem_of_here].
      subst c0. unfold targetChat. destruct a as [x|]; [|done].
      simpl in Ha. rewrite Ha. exact Hui. }
    assert (∀ c, c ∈ Chat.id <$> chats (ui w) →
                 c ∈ Chat.id <$> chats (ui (step w (Send a text lang k)))) as Hmono.
    { intros c Hc. rewrite Hids. destruct (Js.truthy_opt a); [done|].
      by apply list_elem_of_further. }
    split; [|split].
    + intros c. cbn [step ui fst]. rewrite begin_messages. fold c0.
      rewrite is_Some_appendMessage.
      assert (is_Some ((if Js.truthy_opt a
                        then appendMessage c0
                               (userMessage (now_user k) text (date_user k))
                               (messages (ui w))
                        else seedMessages c0
                               (userMessage (now_user k) text (date_user k))
                               (messages (ui w))) !! c)
              ↔ c = c0 ∨ is_Some (messages (ui w) !! c)) as ->.
      { destruct (Js.truthy_opt a); [apply is_Some_appendMessage|].
        apply is_Some_insert_sequence. }
      rewrite Hkeys. split.
      * intros [->|[->|Hc]]; auto.
      * intros Hc. change (c ∈ Chat.id <$> chats (ui (step w (Send a text lang k))))
          in Hc. rewrite Hids in Hc. destruct (Js.truthy_opt a); [auto|].
        apply elem_of_cons in Hc as [->|Hc]; auto.
    + intros x Hx. cbn [step ui fst] in Hx. rewrite begin_activeChatId in Hx.
      destruct (Js.truthy_opt a).
      * by apply Hmono, Hact.
      * injection Hx as <-. exact Hc0.
    + intros t p Hin. cbn [step suspended] in Hin.
      apply elem_of_app in Hin as [Hin|Hin].
      * by eapply Hmono, Hpend.
      * apply list_elem_of_singleton in Hin as [= -> ->].
        rewrite begin_pending. exact Hc0.
  - destruct (take ticket (suspended w)) as [[p rest]|] eqn:Ht;
      [|by rewrite step_Settle_None].
    destruct (take_Some _ _ _ _ Ht) as (l1 & l2 & Hl & -> & _).
    assert (chatId p ∈ Chat.id <$> chats (ui w)) as Hp.
    { apply (Hpend ticket). rewrite Hl, elem_of_app, elem_of_cons. auto. }
    split; [|split].
    + intros c. rewrite step_Settle_chat_ids. cbn [step]. rewrite Ht. cbn [ui].
      rewrite resume_keys, Hkeys. split; [|auto].
      intros [[-> _]|?]; done.
    + intros a. rewrite step_Settle_chat_ids, step_Settle_activeChatId. apply Hact.
    + intros t q Hin. rewrite step_Settle_chat_ids. apply (Hpend t).
      cbn [step] in Hin. rewrite Ht in Hin. cbn [suspended] in Hin.
      rewrite Hl, elem_of_app, elem_of_cons. apply elem_of_app in Hin. tauto.
Qed.

Lemma consistent_exec es : ∀ w,
  consistent w → uiTrace w es → consistent (exec w es).
Proof.
  induction es as [|e es IH]; intros w Hw Hes; [done|].
  destruct Hes as [He Hes]. apply IH; [|done]. by apply consistent_step.
Qed.

(** X9.  In a session driven by the user interface (selections pick an
    entry of the sidebar, the closure of a send holds no chat or a chat of
    the collection), the keys of the conversation map are exactly the ids
    of the chats of the collection, and the active chat and the chat of
    every suspended send are chats of the collection. *)
Theorem chats_and_sequences_agree (es : list Event) :
  uiTrace start es →
  let w := exec start es in
  (∀ c, is_Some (messages (ui w) !! c) ↔ c ∈ Chat.id <$> chats (ui w)) ∧
  (∀ a, activeChatId (ui w) = Some a → a ∈ Chat.id <$> chats (ui w)) ∧
  (∀ t p, (t, p) ∈ suspended w → chatId p ∈ Chat.id <$> chats (ui w)).
Proof.
  intros Hes w. exact (consistent_exec es start consistent_start Hes).
Qed.

Lemma chats_and_sequences_agree_witness :
  let clock t := {| now_chat := t; date_chat := t; now_user := t;
                    date_user := t; date_summary := t;
                    now_loading := t; date_loading := t |} in
  let es := [ Send None "a" "auto" (clock 1000);
              NewChat 2000 2000;
              SelectChat "1000";
              Send (Some "1000") "b" "auto" (clock 3000) ] in
  is_Some (messages (ui (exec start es)) !! "2000") ∧
  chatId <$> (suspended (exec start es)).*2 = ["1000"; "1000"].
Proof.
  intros clock es.
  assert (uiTrace start es) as Hes.
  { vm_compute. repeat split; apply list_elem_of_In; simpl; tauto. }
  split; [|reflexivity].
  apply (proj1 (chats_and_sequences_agree es Hes)).
  vm_compute. apply list_elem_of_here.
Defined.

End consistency.

(** ** The loading indicator and the placeholders *)

Section indicator.
Import App Session.
Implicit Types (w : World) (c : string) (e : Event).

Lemma indicator_step w e :
  (∀ c, loadingChatId (ui w) = Some c → ∃ t p, (t, p) ∈ suspended w ∧ chatId p = c) →
  ∀ c, loadingChatId (ui (step w e)) = Some c →
       ∃ t p, (t, p) ∈ suspended (step w e) ∧ chatId p = c.
Proof.
  intros Hw c. destruct e as [now date|id|a text lang k|ticket outcome k].
  - apply Hw.
  - apply Hw.
  - cbn [step ui suspended fst snd]. rewrite begin_loadingChatId.
    intros [= <-]. eexists _, _. split.
    + apply elem_of_app. right. apply list_elem_of_here.
    + by rewrite begin_pending.
  - cbn [step]. destruct (take ticket (suspended w)) as [[p rest]|]; [|apply Hw].
    cbn [ui]. by rewrite resume_loadingChatId.
Qed.

Lemma indicator_exec es : ∀ w,
  (∀ c, loadingChatId (ui w) = Some c → ∃ t p, (t, p) ∈ suspended w ∧ chatId p = c) →
  ∀ c, loadingChatId (ui (exec w es)) = Some c →
       ∃ t p, (t, p) ∈ suspended (exec w es) ∧ chatId p = c.
Proof.
  induction es as [|e es IH]; intros w Hw; [done|].
  apply (IH (step w e)), indicator_step, Hw.
Qed.

(** X10.  In every state reached from the start, when the loading
    indicator names a chat, a send is suspended on that chat; so when the
    chat area is told that the active chat is loading, a send on the
    active chat is awaiting its reply. *)
Theorem indicator_names_a_waiting_chat (es : list Event) (c : string) :
  let w := exec start es in
  (loadingChatId (ui w) = Some c → suspendedOn c w ≠ []) ∧
  (activeChatId (ui w) = Some c → isLoadingProp (ui w) = true →
   suspendedOn c w ≠ []).
Proof.
  intros w.
  assert (∀ c, loadingChatId (ui w) = Some c →
               ∃ t p, (t, p) ∈ suspended w ∧ chatId p = c) as Hinv.
  { subst w. apply indicator_exec. done. }
  assert (∀ c, loadingChatId (ui w) = Some c → suspendedOn c w ≠ []) as Hsusp.
  { intros c' Hc'. destruct (Hinv c' Hc') as (t & p & Hin & Hp).
    intros Hnil.
    assert (p ∈ suspendedOn c' w) as Hp'.
    { apply list_elem_of_filter. split; [done|].
      by apply (list_elem_of_fmap_2 snd) in Hin. }
    rewrite Hnil in Hp'. by apply elem_of_nil in Hp'. }
  split; [apply Hsusp|].
  intros Hact Hload. apply Hsusp.
  unfold isLoadingProp in Hload. apply bool_decide_eq_true in Hload. congruence.
Qed.

Lemma indicator_names_a_waiting_chat_witness :
  let k := {| now_chat := 1000; date_chat := 1000; now_user := 1000;
              date_user := 1000; date_summary := 1000;
              now_loading := 1000; date_loading := 1000 |} in
  (0 < length (suspendedOn "1000" (exec start [Send None "a" "auto" k])))%nat.
Proof.
  intros k.
  pose proof (proj1 (indicator_names_a_waiting_chat [Send None "a" "auto" k] "1000")
                eq_refl) as Hwaiting.
  destruct (suspendedOn "1000" (exec start [Send None "a" "auto" k]));
    [by destruct Hwaiting|simpl; lia].
Defined.

Lemma shaped_step w e :
  (∀ c m, m ∈ messagesOf c w → shaped m) →
  ∀ c m, m ∈ messagesOf c (step w e) → shaped m.
Proof.
  intros Hw c m. destruct e as [now date|id|a text lang k|ticket outcome k].
  - rewrite messagesOf_NewChat. case_decide; [|apply Hw].
    intros Hm. by apply elem_of_nil in Hm.
  - apply Hw.
  - rewrite messagesOf_Send. case_decide; [|apply Hw].
    rewrite elem_of_app. intros [Hm|Hm].
    + destruct (Js.truthy_opt a); [by eapply Hw|]. by apply elem_of_nil in Hm.
    + simpl in Hm. apply elem_of_cons in Hm as [->|Hm].
      { split; [done|]. intros Hl. done. }
      apply list_elem_of_singleton in Hm as ->. split; [done|]. done.
  - destruct (take ticket (suspended w)) as [[p rest]|] eqn:Ht;
      [|rewrite step_Settle_None by done; apply Hw].
    rewrite (messagesOf_Settle _ _ _ _ _ _ _ Ht). case_decide; [|apply Hw].
    intros Hm. apply list_elem_of_fmap in Hm as (m0 & -> & Hm0).
    case_decide; [|by eapply Hw].
    split.
    + by destruct outcome.
    + intros Hl. by apply resolved_not_loading in Hl.
Qed.

Lemma shaped_exec es : ∀ w,
  (∀ c m, m ∈ messagesOf c w → shaped m) →
  ∀ c m, m ∈ messagesOf c (exec w es) → shaped m.
Proof.
  induction es as [|e es IH]; intros w Hw; [done|].
  apply (IH (step w e)), shaped_step, Hw.
Qed.

(** X11.  In every state reached from the start, a user message carries
    neither [isLoading] nor [lang], a loading message is a bot message with
    an empty text, and therefore no placeholder and no user message is
    ever given a "read aloud" button. *)
Theorem placeholders_are_silent (es : list Event) (c : string)
    (m : Message.t) (synthRef : option (list ChatArea.SpeechSynthesisUtterance)) :
  m ∈ messagesOf c (exec start es) →
  (Message.sender m = user →
   Message.isLoading m = None ∧ Message.lang m = None) ∧
  (loading m → Message.sender m = bot ∧ Message.text m = "") ∧
  (loading m ∨ Message.sender m = user → ChatArea.speakButton synthRef m = None).
Proof.
  intros Hm.
  assert (shaped m) as [Huser Hload].
  { apply (shaped_exec es start) in Hm; [done|].
    intros c' m' H. by apply elem_of_nil in H. }
  split; [done|]. split; [done|].
  intros [Hl|Hu]; unfold ChatArea.speakButton.
  - destruct (Hload Hl) as [-> ->]. by destruct synthRef.
  - by rewrite Hu.
Qed.

Lemma placeholders_are_silent_witness :
  let clock t := {| now_chat := t; date_chat := t; now_user := t;
                    date_user := t; date_summary := t;
                    now_loading := t; date_loading := t |} in
  ChatArea.speakButton (Some []) (loadingMessage "1001" 1000) = None.
Proof.
  intros clock.
  refine (proj2 (proj2 (placeholders_are_silent
            [Send None "a" "auto" (clock 1000)] "1000"
            (loadingMessage "1001" 1000) (Some []) _)) _).
  - vm_compute. apply list_elem_of_further, list_elem_of_here.
  - by left.
Defined.

End indicator.

(** ** Typed messages *)

Lemma trimEnd_app_space (s : string) : Js.trimEnd (s +:+ " ") = Js.trimEnd s.
Proof.
  induction s as [|a s IH]; [done|].
  change (Js.trimEnd (String a (s +:+ " ")) = Js.trimEnd (String a s)).
  simpl. by rewrite IH.
Qed.

Lemma trimStart_app (s u : string) :
  Js.trimStart s ≠ "" → Js.trimStart (s +:+ u) = Js.trimStart s +:+ u.
Proof.
  induction s as [|a s IH]; [done|].
  change (String a s +:+ u) with (String a (s +:+ u)). simpl.
  destruct (Js.is_space a); [apply IH|done].
Qed.

Lemma trimStart_blank_app (s u : string) :
  Js.trimStart s = "" → Js.trimStart (s +:+ u) = Js.trimStart u.
Proof.
  induction s as [|a s IH]; [done|].
  change (String a s +:+ u) with (String a (s +:+ u)). simpl.
  destruct (Js.is_space a); [apply IH|done].
Qed.

Lemma trim_app_space (s : string) : Js.trim (s +:+ " ") = Js.trim s.
Proof.
  unfold Js.trim. destruct (decide (Js.trimStart s = "")) as [E|E].
  - by rewrite trimStart_blank_app, E.
  - by rewrite trimStart_app, trimEnd_app_space.
Qed.

(** X12.  Submitting the form with an input that is blank (empty once
    trimmed) changes nothing and sends nothing.  Otherwise exactly one
    send is issued, with the trimmed input and the language code of the
    selected tag, and the input is emptied.  For the three tags of the
    selector a typed message and a spoken one carry the same code; for
    any other tag the typed one carries "auto" and the spoken one "en". *)
Theorem handleSubmit_sends_trimmed_input (st : ChatArea.State) :
  let text := Js.trim (ChatArea.input st) in
  let tag := ChatArea.selectedLanguage st in
  let st' := ChatArea.handleSubmit st in
  (text = "" → st' = st) ∧
  (text ≠ "" →
   ∃ lang,
     ChatArea.sent st' = ChatArea.sent st ++ [(text, lang)] ∧
     ChatArea.input st' = "" ∧
     ChatArea.finalTranscriptRef st' = ChatArea.finalTranscriptRef st ∧
     ChatArea.isListening st' = ChatArea.isListening st ∧
     (tag = "en-US" ∨ tag = "hi-IN" ∨ tag = "te-IN" →
      lang = ChatArea.backendLang tag) ∧
     (tag ≠ "en-US" → tag ≠ "hi-IN" → tag ≠ "te-IN" →
      lang = "auto" ∧ ChatArea.backendLang tag = "en")).
Proof.
  intros text tag st'. subst st'. unfold ChatArea.handleSubmit. fold text tag.
  split.
  - intros ->. done.
  - intros Hne. apply truthy_nonempty in Hne. rewrite Hne.
    eexists. split; [done|]. do 3 (split; [done|]).
    unfold ChatArea.backendLang. rewrite langMap_lookup. split.
    + intros [-> | [-> | ->]]; done.
    + intros H1 H2 H3. by rewrite !decide_False.
Qed.

Lemma handleSubmit_sends_trimmed_input_witness :
  let st := {| ChatArea.input := "  what is malaria? ";
               ChatArea.isListening := false;
               ChatArea.selectedLanguage := "te-IN";
               ChatArea.finalTranscriptRef := ""; ChatArea.sent := [] |} in
  ∃ lang,
    ChatArea.sent (ChatArea.handleSubmit st) = [("what is malaria?", lang)] ∧
    ChatArea.input (ChatArea.handleSubmit st) = "" ∧
    lang = "te".
Proof.
  intros st.
  destruct (proj2 (handleSubmit_sends_trimmed_input st) ltac:(by vm_compute))
    as (lang & Hsent & Hinput & _ & _ & Hlang & _).
  exists lang. split; [exact Hsent|]. split; [exact Hinput|].
  exact (Hlang ltac:(right; right; reflexivity)).
Defined.

(** ** Recognition results *)

Lemma onresult_fold (rs : list ChatArea.SpeechRecognitionResult) : ∀ f i,
  foldl (λ '(f, i) r,
           if ChatArea.isFinal r then (f +:+ (ChatArea.transcript r +:+ " "), i)
           else (f, i +:+ ChatArea.transcript r))
        (f, i) rs
  = (f +:+ ChatArea.finalText rs, i +:+ ChatArea.interimText rs).
Proof.
  induction rs as [|r rs IH]; intros f i.
  - simpl. by rewrite !string_app_nil_r.
  - simpl. destruct (ChatArea.isFinal r); rewrite IH.
    + by rewrite !string_app_assoc.
    + by rewrite !string_app_assoc.
Qed.

Lemma finalText_no_final (rs : list ChatArea.SpeechRecognitionResult) :
  Forall (λ r, ChatArea.isFinal r = false) rs → ChatArea.finalText rs = "".
Proof.
  induction 1 as [|r rs Hr _ IH]; [done|]. simpl. by rewrite Hr.
Qed.

Lemma finalText_truthy (rs : list ChatArea.SpeechRecognitionResult) :
  Js.truthy (ChatArea.finalText rs) = false → ChatArea.finalText rs = "".
Proof. by destruct (ChatArea.finalText rs). Qed.

Lemma onresult_buffer (event : ChatArea.SpeechRecognitionEvent)
    (st : ChatArea.State) :
  let rs := drop (ChatArea.resultIndex event) (ChatArea.results event) in
  let st' := ChatArea.onresult event st in
  ChatArea.finalTranscriptRef st' =
    ChatArea.finalTranscriptRef st +:+ ChatArea.finalText rs ∧
  ChatArea.input st' =
    Js.trim (ChatArea.finalTranscriptRef st' +:+ ChatArea.interimText rs) ∧
  ChatArea.sent st' = ChatArea.sent st ∧
  ChatArea.isListening st' = ChatArea.isListening st ∧
  ChatArea.selectedLanguage st' = ChatArea.selectedLanguage st.
Proof.
  intros rs st'. subst st'. unfold ChatArea.onresult. fold rs.
  rewrite onresult_fold. change ("" +:+ ?x) with x.
  destruct (Js.truthy (ChatArea.finalText rs)) eqn:E.
  - done.
  - apply finalText_truthy in E. rewrite E, string_app_nil_r. done.
Qed.

(** X13.  A recognition result event only ever appends to the transcript
    buffer: the new buffer is the old one followed by the final fragments
    from [resultIndex] on, each with a space after it.  Interim fragments
    never enter the buffer (an event without final results leaves it as it
    is); they only show in the input, which is the trimmed buffer followed
    by the interim text.  Nothing is sent. *)
Theorem onresult_appends_final_fragments (event : ChatArea.SpeechRecognitionEvent)
    (st : ChatArea.State) :
  let rs := drop (ChatArea.resultIndex event) (ChatArea.results event) in
  let st' := ChatArea.onresult event st in
  ChatArea.finalTranscriptRef st' =
    ChatArea.finalTranscriptRef st +:+ ChatArea.finalText rs ∧
  ChatArea.input st' =
    Js.trim (ChatArea.finalTranscriptRef st' +:+ ChatArea.interimText rs) ∧
  (Forall (λ r, ChatArea.isFinal r = false) rs →
   ChatArea.finalTranscriptRef st' = ChatArea.finalTranscriptRef st) ∧
  ChatArea.sent st' = ChatArea.sent st ∧
  ChatArea.isListening st' = ChatArea.isListening st.
Proof.
  intros rs st'.
  destruct (onresult_buffer event st) as (Hbuf & Hinput & Hsent & Hlisten & _).
  fold rs st' in Hbuf, Hinput, Hsent, Hlisten.
  split; [done|]. split; [done|]. split; [|done].
  intros Hrs. by rewrite Hbuf, finalText_no_final, string_app_nil_r.
Qed.

Lemma onresult_appends_final_fragments_witness :
  let st := {| ChatArea.input := "what is"; ChatArea.isListening := true;
               ChatArea.selectedLanguage := "en-US";
               ChatArea.finalTranscriptRef := "what is ";
               ChatArea.sent := [] |} in
  let event := {| ChatArea.resultIndex := 1;
                  ChatArea.results :=
                    [ {| ChatArea.isFinal := true;
                         ChatArea.transcript := "what is" |};
                      {| ChatArea.isFinal := false;
                         ChatArea.transcript := " fev" |} ] |} in
  ChatArea.finalTranscriptRef (ChatArea.onresult event st) = "what is ".
Proof.
  intros st event.
  destruct (onresult_appends_final_fragments event st) as (_ & _ & Hkeep & _).
  apply Hkeep. repeat constructor.
Defined.

(** ** The end of a recognition session *)

(** X14.  When a recognition error is followed by the end of the session,
    the transcript is sent once, not twice: the error handler empties the
    buffer and schedules the send of the trimmed transcript, and the end
    handler then finds nothing to send. *)
Theorem error_then_end_sends_once (st : ChatArea.State) :
  let transcript := Js.trim (ChatArea.finalTranscriptRef st) in
  let afterError := ChatArea.onerror st in
  let afterEnd := ChatArea.onend afterError.1 in
  let st' := ChatArea.fire (afterEnd.1, afterError.2) in
  afterEnd.2 = None ∧
  ChatArea.finalTranscriptRef afterError.1 = "" ∧
  ChatArea.sent st' =
    ChatArea.sent st ++
    (if decide (transcript = "") then []
     else [(transcript, ChatArea.backendLang (ChatArea.selectedLanguage st))]) ∧
  ChatArea.finalTranscriptRef st' = "" ∧
  ChatArea.isListening st' = false.
Proof.
  intros transcript afterError afterEnd st'.
  subst st' afterEnd afterError transcript.
  unfold ChatArea.fire, ChatArea.onerror. simpl.
  destruct (Js.trim (ChatArea.finalTranscriptRef st)) as [|ch rest]; simpl.
  - by rewrite app_nil_r.
  - done.
Qed.

(** ** A whole recognition session *)

(** X15.  A session that starts while not listening sends what was heard
    in it and nothing else: whatever the buffer and the input held before,
    after [startListening], one result event and the end of the session,
    the only send issued is that of the trimmed final text of the event
    (none when that is empty), with the language code of the selected tag,
    and the buffer is empty again.  For a single final fragment the text
    sent is the trimmed fragment. *)
Theorem voice_session_sends_what_was_heard (st : ChatArea.State)
    (event : ChatArea.SpeechRecognitionEvent) :
  ChatArea.isListening st = false →
  let started := ChatArea.startListening (Some false) st in
  let rs := drop (ChatArea.resultIndex event) (ChatArea.results event) in
  let heard := Js.trim (ChatArea.finalText rs) in
  let st' := ChatArea.fire (ChatArea.onend (ChatArea.onresult event started.1)) in
  started.2 = [ChatArea.Start] ∧
  ChatArea.isListening started.1 = true ∧
  ChatArea.sent st' =
    ChatArea.sent st ++
    (if decide (heard = "") then []
     else [(heard, ChatArea.backendLang (ChatArea.selectedLanguage st))]) ∧
  ChatArea.finalTranscriptRef st' = "" ∧
  ChatArea.isListening st' = false ∧
  (∀ t, rs = [ {| ChatArea.isFinal := true; ChatArea.transcript := t |} ] →
        heard = Js.trim t).
Proof.
  intros Hidle started rs heard st'.
  assert (started = (ChatArea.setIsListening true
                       (ChatArea.setInput "" (ChatArea.setFinalTranscript "" st)),
                     [ChatArea.Start])) as Hstarted.
  { subst started. unfold ChatArea.startListening. by rewrite Hidle. }
  destruct (onresult_buffer event started.1) as (Hbuf & _ & Hsent & _ & Hsel).
  fold rs in Hbuf. rewrite Hstarted in Hbuf, Hsent, Hsel. simpl in Hbuf, Hsent, Hsel.
  change ("" +:+ ?x) with x in Hbuf.
  split; [by rewrite Hstarted|]. split; [by rewrite Hstarted|].
  assert (ChatArea.sent st' =
            ChatArea.sent st ++
            (if decide (heard = "") then []
             else [(heard, ChatArea.backendLang (ChatArea.selectedLanguage st))]) ∧
          ChatArea.finalTranscriptRef st' = "" ∧
          ChatArea.isListening st' = false) as (H1 & H2 & H3).
  { subst st'. rewrite Hstarted. unfold ChatArea.fire, ChatArea.onend.
    cbn [fst snd ChatArea.finalTranscriptRef ChatArea.setIsListening
         ChatArea.selectedLanguage].
    rewrite Hbuf, Hsel. fold heard.
    destruct heard as [|ch rest] eqn:E; simpl.
    - rewrite Hsent. by rewrite app_nil_r.
    - by rewrite Hsent. }
  split; [done|]. split; [done|]. split; [done|].
  intros t Hrs. subst heard. rewrite Hrs. simpl.
  by rewrite string_app_nil_r, trim_app_space.
Qed.

Lemma voice_session_sends_what_was_heard_witness :
  let st := {| ChatArea.input := "typed before"; ChatArea.isListening := false;
               ChatArea.selectedLanguage := "hi-IN";
               ChatArea.finalTranscriptRef := "left over ";
               ChatArea.sent := [] |} in
  let event := {| ChatArea.resultIndex := 0;
                  ChatArea.results :=
                    [ {| ChatArea.isFinal := true;
                         ChatArea.transcript := "what is fever" |} ] |} in
  ChatArea.sent
    (ChatArea.fire
       (ChatArea.onend
          (ChatArea.onresult event (ChatArea.startListening (Some false) st).1)))
  = [("what is fever", "hi")].
Proof.
  intros st event.
  destruct (voice_session_sends_what_was_heard st event eq_refl)
    as (_ & _ & Hsent & _).
  exact Hsent.
Defined.

(** ** The microphone button *)

(** X16.  A click on the microphone never sends anything and never
    changes the selected language.  Without speech recognition it does
    nothing.  While listening it stops the recognition.  While not
    listening it empties the buffer and the input and calls [start]; when
    [start] throws, listening does not begin although the input has
    already been emptied. *)
Theorem handleMicClick_cases (recognitionRef : option bool) (st : ChatArea.State) :
  let r := ChatArea.handleMicClick recognitionRef st in
  ChatArea.sent r.1 = ChatArea.sent st ∧
  ChatArea.selectedLanguage r.1 = ChatArea.selectedLanguage st ∧
  (recognitionRef = None → r = (st, [])) ∧
  (∀ startThrows,
     recognitionRef = Some startThrows → ChatArea.isListening st = true →
     r = (ChatArea.setIsListening false st, [ChatArea.Stop])) ∧
  (∀ startThrows,
     recognitionRef = Some startThrows → ChatArea.isListening st = false →
     r.2 = [ChatArea.Start] ∧
     ChatArea.input r.1 = "" ∧
     ChatArea.finalTranscriptRef r.1 = "" ∧
     ChatArea.isListening r.1 = negb startThrows).
Proof.
  intros r. subst r.
  unfold ChatArea.handleMicClick, ChatArea.stopListening, ChatArea.startListening.
  destruct recognitionRef as [throws|];
    destruct (ChatArea.isListening st) eqn:E.
  all: repeat split; try done; intros; simplify_eq; try done.
  all: match goal with |- context [if ?b then _ else _] => by destruct b end.
Qed.

Lemma handleMicClick_cases_witness :
  let st := {| ChatArea.input := "half typed"; ChatArea.isListening := false;
               ChatArea.selectedLanguage := "en-US";
               ChatArea.finalTranscriptRef := "";
               ChatArea.sent := [] |} in
  let r := ChatArea.handleMicClick (Some true) st in
  r.2 = [ChatArea.Start] ∧ ChatArea.input r.1 = "" ∧
  ChatArea.finalTranscriptRef r.1 = "" ∧ ChatArea.isListening r.1 = false.
Proof.
  intros st r.
  destruct (handleMicClick_cases (Some true) st) as (_ & _ & _ & _ & Hstart).
  exact (Hstart true eq_refl eq_refl).
Defined.

(** ** Reading aloud *)

Lemma langCodeMap_lookup (lang : string) :
  ChatArea.langCodeMap !! lang =
  if decide (lang = "en") then Some "en-US"
  else if decide (lang = "hi") then Some "hi-IN"
  else if decide (lang = "te") then Some "te-IN"
  else if decide (lang = "kn") then Some "te-IN"
  else None.
Proof.
  unfold ChatArea.langCodeMap.
  repeat case_decide; subst; try by vm_compute.
  rewrite !lookup_insert_ne by done. by apply lookup_singleton_ne.
Qed.

Lemma langCodeMap_own :
  Forall (λ own, own ∉ Js.Object_prototype) ["en"; "hi"; "te"; "kn"].
Proof. repeat constructor; by apply (bool_decide_unpack _). Qed.

(** X17.  Reading a text aloud leaves exactly one utterance in the queue
    of the synthesizer, whatever was queued or being spoken before, with
    the given text.  For a language code that is not a name inherited from
    [Object.prototype] its locale is one of "en-US", "hi-IN" and "te-IN"
    ("kn" is read with "te-IN", an unknown code with "en-US"); for an
    inherited name such as "constructor" the locale is set to the
    inherited value, which is no locale string.  Without speech synthesis
    nothing happens. *)
Theorem speakText_replaces_queue (text lang : string)
    (synthRef : option (list ChatArea.SpeechSynthesisUtterance)) :
  (synthRef = None → ChatArea.speakText text lang synthRef = None) ∧
  (∀ queue, synthRef = Some queue →
     ∃ u, ChatArea.speakText text lang synthRef = Some [u] ∧
          ChatArea.utterance_text u = text ∧
          (lang ∉ Js.Object_prototype →
           ChatArea.utterance_lang u = Js.Str "en-US" ∨
           ChatArea.utterance_lang u = Js.Str "hi-IN" ∨
           ChatArea.utterance_lang u = Js.Str "te-IN") ∧
          (lang ∈ Js.Object_prototype →
           ChatArea.utterance_lang u = Js.Inherited lang) ∧
          (lang = "kn" → ChatArea.utterance_lang u = Js.Str "te-IN") ∧
          (lang ≠ "en" → lang ≠ "hi" → lang ≠ "te" → lang ≠ "kn" →
           lang ∉ Js.Object_prototype →
           ChatArea.utterance_lang u = Js.Str "en-US")).
Proof.
  split; [by intros ->|]. intros queue ->.
  unfold ChatArea.speakText, ChatArea.speak, ChatArea.cancel.
  eexists. split; [done|]. split; [done|].
  cbn [ChatArea.utterance_lang]. unfold Js.get_or, Js.get.
  rewrite langCodeMap_lookup.
  pose proof langCodeMap_own as Hown.
  repeat (apply Forall_cons in Hown as [? Hown]).
  repeat case_decide; subst; simpl; repeat split; intros; auto; done.
Qed.

Lemma speakText_replaces_queue_witness :
  let spoken := {| ChatArea.utterance_text := "earlier reply";
                   ChatArea.utterance_lang := Js.Str "en-US";
                   ChatArea.rate := QArith_base.Qmake 9 10;
                   ChatArea.pitch := QArith_base.Qmake 1 1;
                   ChatArea.volume := QArith_base.Qmake 1 1 |} in
  (∃ u, ChatArea.speakText "namaskara" "kn" (Some [spoken; spoken]) = Some [u] ∧
        ChatArea.utterance_text u = "namaskara" ∧
        ChatArea.utterance_lang u = Js.Str "te-IN") ∧
  (∃ u, ChatArea.speakText "hello" "constructor" (Some [spoken]) = Some [u] ∧
        ChatArea.utterance_lang u = Js.Inherited "constructor").
Proof.
  intros spoken. split.
  - destruct (speakText_replaces_queue "namaskara" "kn" (Some [spoken; spoken]))
      as (_ & Hsome).
    destruct (Hsome [spoken; spoken] eq_refl) as (u & Hu & Htext & _ & _ & Hkn & _).
    exists u. repeat split; [exact Hu|exact Htext|exact (Hkn eq_refl)].
  - destruct (speakText_replaces_queue "hello" "constructor" (Some [spoken]))
      as (_ & Hsome).
    destruct (Hsome [spoken] eq_refl) as (u & Hu & _ & _ & Hproto & _).
    exists u. split; [exact Hu|]. apply Hproto. apply list_elem_of_here.
Defined.

(** X18.  The two language tables are inverse to each other on the tags
    of the selector: a reply whose language is the code sent for the
    selected tag is read with that very tag as its locale. *)
Theorem reply_is_read_in_selected_locale (tag text : string)
    (queue : list ChatArea.SpeechSynthesisUtterance) :
  tag = "en-US" ∨ tag = "hi-IN" ∨ tag = "te-IN" →
  ∃ u, ChatArea.speakText text (ChatArea.backendLang tag) (Some queue) = Some [u] ∧
       ChatArea.utterance_lang u = Js.Str tag.
Proof.
  intros [-> | [-> | ->]]; eexists; split; try done; by vm_compute.
Qed.

Lemma reply_is_read_in_selected_locale_witness :
  ∃ u, ChatArea.speakText "Drink water" (ChatArea.backendLang "hi-IN") (Some [])
       = Some [u] ∧
       ChatArea.utterance_lang u = Js.Str "hi-IN".
Proof.
  exact (reply_is_read_in_selected_locale "hi-IN" "Drink water" []
           ltac:(right; left; reflexivity)).
Defined.

(** ** Relative times in the sidebar *)

(** X19.  The time shown for a chat depends on the age [now - date] of its
    timestamp only through five ranges: "Just now" below one minute (also
    for a timestamp in the future), whole minutes from 1 to 59 below one
    hour, whole hours from 1 to 23 below one day, whole days from 1 to 6
    below one week, and the local date from one week on. *)
Theorem formatTime_ranges (toLocaleDateString : Z → string) (now date : Z) :
  let diff := now - date in
  let shown := Sidebar.formatTime toLocaleDateString now date in
  (diff < 60000 → shown = "Just now") ∧
  (60000 ≤ diff < 3600000 →
   shown = Js.toString (diff / 60000) +:+ "m ago" ∧ 1 ≤ diff / 60000 ≤ 59) ∧
  (3600000 ≤ diff < 86400000 →
   shown = Js.toString (diff / 3600000) +:+ "h ago" ∧ 1 ≤ diff / 3600000 ≤ 23) ∧
  (86400000 ≤ diff < 604800000 →
   shown = Js.toString (diff / 86400000) +:+ "d ago" ∧ 1 ≤ diff / 86400000 ≤ 6) ∧
  (604800000 ≤ diff → shown = toLocaleDateString date).
Proof.
  intros diff shown. subst shown. unfold Sidebar.formatTime. fold diff.
  clearbody diff.
  assert (∀ b q, 0 < b → (diff / b < q ↔ diff < b * q)) as Hdiv.
  { intros b q Hb. split.
    - intros H. destruct (Z_lt_le_dec diff (b * q)) as [|Hle]; [done|].
      apply (Z.div_le_lower_bound _ _ _ Hb) in Hle. lia.
    - by apply Z.div_lt_upper_bound. }
  pose proof (Hdiv 60000 1 eq_refl) as H1.
  pose proof (Hdiv 60000 60 eq_refl) as H60.
  pose proof (Hdiv 3600000 1 eq_refl) as Hh1.
  pose proof (Hdiv 3600000 24 eq_refl) as H24.
  pose proof (Hdiv 86400000 1 eq_refl) as Hd1.
  pose proof (Hdiv 86400000 7 eq_refl) as H7.
  clear Hdiv.
  destruct (Z.ltb_spec (diff / 60000) 1);
    destruct (Z.ltb_spec (diff / 60000) 60);
    destruct (Z.ltb_spec (diff / 3600000) 24);
    destruct (Z.ltb_spec (diff / 86400000) 7);
    repeat split; intros; try done; lia.
Qed.

Lemma formatTime_ranges_witness :
  Sidebar.formatTime (λ _, "1/1/2026") 7500000 300000 = "2h ago".
Proof.
  exact (proj1 (proj1 (proj2 (proj2
           (formatTime_ranges (λ _, "1/1/2026") 7500000 300000)))
           ltac:(simpl; lia))).
Defined.

(** ** How the summary updates compose *)

Lemma derived_title_default (text : string) :
  Js.slice0 30 text +:+
    (if decide (30 < String.length text)%nat then "..." else "") = "New Chat"
  → text = "New Chat".
Proof.
  case_decide as Hlen.
  - intros E. apply (f_equal String.length) in E.
    rewrite string_app_length, slice0_length in E by lia. done.
  - rewrite string_app_nil_r, slice0_all by lia. done.
Qed.

(** X20.  The first message names the chat and later messages only change
    the preview: after the summary updates of two messages on a chat that
    had the default title, the title is the one made from the first text
    (provided that text is not "New Chat" itself) and [lastMessage] and
    [timestamp] are those of the second. *)
Theorem title_comes_from_first_message (prevChats : list Chat.t) (i : nat)
    (chat : Chat.t) (text1 text2 : string) (date1 date2 : Z) :
  prevChats !! i = Some chat →
  Chat.title chat = "New Chat" →
  text1 ≠ "New Chat" →
  App.updateChatSummary (Chat.id chat) text2 date2
    (App.updateChatSummary (Chat.id chat) text1 date1 prevChats) !! i =
  Some {| Chat.id := Chat.id chat;
          Chat.title :=
            Js.slice0 30 text1 +:+
            (if decide (30 < String.length text1)%nat then "..." else "");
          Chat.lastMessage := text2; Chat.timestamp := date2 |}.
Proof.
  intros Hi Ht Hne. unfold App.updateChatSummary.
  rewrite !list_lookup_fmap, Hi. cbn -[Js.slice0].
  rewrite (decide_True (P := Chat.id chat = Chat.id chat ∧ Chat.title chat = _))
    by done.
  cbn -[Js.slice0]. rewrite decide_False.
  - by rewrite decide_True.
  - intros [_ E]. by apply derived_title_default in E.
Qed.

Lemma title_comes_from_first_message_witness :
  App.updateChatSummary "7" "and what about malaria?" 3
    (App.updateChatSummary "7" "What is fever?" 2
       [ {| Chat.id := "7"; Chat.title := "New Chat";
            Chat.lastMessage := ""; Chat.timestamp := 1 |} ]) !! 0%nat =
  Some {| Chat.id := "7"; Chat.title := "What is fever?";
          Chat.lastMessage := "and what about malaria?"; Chat.timestamp := 3 |}.
Proof.
  exact (title_comes_from_first_message
           [ {| Chat.id := "7"; Chat.title := "New Chat";
                Chat.lastMessage := ""; Chat.timestamp := 1 |} ] 0
           {| Chat.id := "7"; Chat.title := "New Chat";
              Chat.lastMessage := ""; Chat.timestamp := 1 |}
           "What is fever?" "and what about malaria?" 2 3
           eq_refl eq_refl ltac:(discriminate)).
Defined.

(** X21.  The summary of a chat shows the reply that arrived last: when
    two sends on the same chat succeed, the chat collection after both
    replies is what the second reply alone would have left, whichever of
    the two sends was issued first. *)
Theorem last_reply_wins (p1 p2 : App.Pending) (r1 r2 : Api.ChatResponse)
    (k1 k2 : App.ResumeClock) (s : App.State) :
  App.chatId p1 = App.chatId p2 →
  App.chats
    (App.handleSendMessage_resume p2 (inr r2) k2
       (App.handleSendMessage_resume p1 (inr r1) k1 s))
  = App.chats (App.handleSendMessage_resume p2 (inr r2) k2 s).
Proof.
  intros Hc. rewrite !resume_chats, Hc. unfold App.updateLastMessage.
  rewrite <-list_fmap_compose. apply list_fmap_ext.
  intros i chat _. simpl. by repeat case_decide.
Qed.

Lemma last_reply_wins_witness :
  let clock t := {| App.now_chat := t; App.date_chat := t; App.now_user := t;
                    App.date_user := t; App.date_summary := t;
                    App.now_loading := t; App.date_loading := t |} in
  let first := App.handleSendMessage_begin None "a" "auto" (clock 1000) App.initial in
  let second := App.handleSendMessage_begin (Some "1000") "b" "auto" (clock 2000)
                  first.1 in
  let r1 := {| Api.reply := "reply to a"; Api.lang := "en" |} in
  let r2 := {| Api.reply := "reply to b"; Api.lang := "en" |} in
  let k t := {| App.date_reply := t; App.date_last := t |} in
  App.chats
    (App.handleSendMessage_resume first.2 (inr r1) (k 4000)
       (App.handleSendMessage_resume second.2 (inr r2) (k 3000) second.1))
  = App.chats (App.handleSendMessage_resume first.2 (inr r1) (k 4000) second.1).
Proof.
  intros clock first second r1 r2 k.
  apply (last_reply_wins second.2 first.2 r2 r1 (k 3000) (k 4000) second.1).
  reflexivity.
Defined.
